(** * hgraph runtime core: nodes, node schedulers, generator and push-queue
    sources, dictionary outputs and reference outputs.

    A shallow embedding of the Python reference implementation
    ([hg/_impl/_runtime/_node.py], [hgraph/_impl/_types/_tsd.py],
    [hgraph/_impl/_types/_ref.py], with the iteration of list inputs of
    [hgraph/_types/_tsl_type.py]) together with the properties the
    specification states about it.

    Conventions of the embedding:
    - a [datetime] is an integer count of ticks ([Z]);
    - a Python method that mutates [self] is a function from the state of
      the objects it touches to an [outcome]: either it returns, or it
      raises; in both cases the state reached so far is kept, since Python
      never rolls back the mutations made before an exception;
    - calls that leave the modelled objects (scheduling a node on the
      graph, calling the user function, registering an engine callback)
      are recorded, in order, in a log carried by the state. *)

From Stdlib Require Import ZArith String.
From stdpp Require Import base option list gmap strings sorting.

Local Open Scope Z_scope.

(** ** Python exceptions and the state-and-exception monad *)

Inductive exn : Set :=
| KeyError
| ValueError
| TypeError
| RuntimeError
| AttributeError.

Inductive outcome (S A : Type) : Type :=
| Return (s : S) (a : A)
| Raise (s : S) (e : exn).
Arguments Return {S A} s a.
Arguments Raise {S A} s e.

Definition state_of {S A} (o : outcome S A) : S :=
  match o with Return s _ => s | Raise s _ => s end.

Definition returned {S A} (o : outcome S A) : bool :=
  match o with Return _ _ => true | Raise _ _ => false end.

Definition M (S A : Type) : Type := S → outcome S A.

#[global] Instance M_ret {S} : MRet (M S) := λ A a s, Return s a.
#[global] Instance M_bind {S} : MBind (M S) := λ A B f c s,
  match c s with
  | Return s' a => f a s'
  | Raise s' e => Raise s' e
  end.

Definition raise {S A} (e : exn) : M S A := λ s, Raise s e.
Definition get {S} : M S S := λ s, Return s s.
Definition put {S} (s : S) : M S () := λ _, Return s ().
Definition modify {S} (f : S → S) : M S () := λ s, Return (f s) ().

(** ** [NodeSchedulerImpl] (hg/_impl/_runtime/_node.py) *)

Module Scheduler.

(** An entry of [_scheduled_events]: the tuple [(when, tag)]. *)
Definition event : Type := Z * string.

(** Python's ordering of the tuples: lexicographic, strings by code. *)
Definition event_ltb (a b : event) : bool :=
  (a.1 <? b.1) || ((a.1 =? b.1) && String.ltb a.2 b.2).

(** [SortedList.add]: the value goes before the first larger element. *)
Fixpoint sl_add (x : event) (l : list event) : list event :=
  match l with
  | [] => [x]
  | y :: l' => if event_ltb x y then x :: y :: l' else y :: sl_add x l'
  end.

(** [SortedList.remove]: one occurrence is removed, [None] stands for the
    [ValueError] raised when the value is not in the list. *)
Fixpoint sl_remove (x : event) (l : list event) : option (list event) :=
  match l with
  | [] => None
  | y :: l' => if decide (x = y) then Some l' else (y ::.) <$> sl_remove x l'
  end.

Record NodeSchedulerImpl : Type := mkScheduler {
  _scheduled_events : list event;
  _tags : gmap (option string) Z
}.

(** What a scheduler reaches through [self._node]: the clock of the
    graph's context, the index of the node, and the graph itself, of
    which the calls to [schedule_node] are logged. *)
Record world : Type := mkWorld {
  sched : NodeSchedulerImpl;
  current_engine_time : Z;
  node_ndx : nat;
  schedule_node_calls : list (nat * Z)
}.

Definition set_events (ev : list event) (w : world) : world :=
  mkWorld (mkScheduler ev (_tags (sched w)))
          (current_engine_time w) (node_ndx w) (schedule_node_calls w).

Definition set_tags (tg : gmap (option string) Z) (w : world) : world :=
  mkWorld (mkScheduler (_scheduled_events (sched w)) tg)
          (current_engine_time w) (node_ndx w) (schedule_node_calls w).

Definition graph_schedule_node (ndx : nat) (t : Z) (w : world) : world :=
  mkWorld (sched w) (current_engine_time w) (node_ndx w)
          (schedule_node_calls w ++ [(ndx, t)]).

Definition reset_scheduler : NodeSchedulerImpl := mkScheduler [] ∅.

Definition is_scheduled (s : NodeSchedulerImpl) : bool :=
  match _scheduled_events s with [] => false | _ => true end.

Definition is_scheduled_now (s : NodeSchedulerImpl) (now : Z) : bool :=
  match _scheduled_events s with
  | [] => false
  | e :: _ => e.1 =? now
  end.

(** [self._scheduled_events.remove(v)] *)
Definition events_remove (v : event) : M world () := λ w,
  match sl_remove v (_scheduled_events (sched w)) with
  | Some ev => Return (set_events ev w) ()
  | None => Raise w ValueError
  end.

Definition un_schedule (tag : option string) : M world () := λ w,
  match tag with
  | Some g =>
      match _tags (sched w) !! Some g with
      | Some t =>
          (_ ← events_remove (t, g);
           modify (λ w, set_tags (delete (Some g) (_tags (sched w))) w)) w
      | None => Return w ()
      end
  | None => Return (set_events (tail (_scheduled_events (sched w))) w) ()
  end.

Definition reset : M world () := λ w,
  Return (set_tags ∅ (set_events [] w)) ().

(** The loop of [advance]: pop the head while it is not later than
    [until]. *)
Fixpoint pop_until (until : Z) (l : list event) : list event :=
  match l with
  | [] => []
  | e :: l' => if bool_decide (e.1 ≤ until) then pop_until until l' else l
  end.

Definition advance : M world () := λ w,
  let until := current_engine_time w in
  let ev := pop_until until (_scheduled_events (sched w)) in
  let w := set_events ev w in
  match ev with
  | [] => Return w ()
  | e :: _ => Return (graph_schedule_node (node_ndx w) e.1 w) ()
  end.

(** The order of a [SortedList], as far as the times go: no entry is later
    than one that follows it. *)
Definition times_sorted (l : list event) : Prop :=
  StronglySorted (λ a b : event, a.1 ≤ b.1) l.

(** The scheduled entries that carry the tag [g]. *)
Definition entries_of (g : string) (s : NodeSchedulerImpl) : list event :=
  filter (λ e : event, e.2 = g) (_scheduled_events s).

(** [_tags] and [_scheduled_events] agree on the tag [g]: the tag is in
    [_tags] exactly when one entry carries it, and that entry has the
    recorded time. *)
Definition tag_consistent (g : string) (s : NodeSchedulerImpl) : Prop :=
  entries_of g s =
    match _tags s !! Some g with
    | Some t => [(t, g)]
    | None => []
    end.

Section WithSentinels.
(** [MIN_DT] and [MAX_DT] are imported from [hg]; their values are not
    part of the sources at hand, only that [MIN_DT] comes before any
    real time and [MAX_DT] after. *)
Variables MIN_DT MAX_DT : Z.

Definition next_scheduled_time (s : NodeSchedulerImpl) : Z :=
  match _scheduled_events s with
  | e :: _ => e.1
  | [] => MIN_DT
  end.

Definition schedule (when : Z) (tag : option string) : M world () := λ w,
  (_ ← (match tag with
        | Some g =>
            match _tags (sched w) !! Some g with
            | Some t => events_remove (t, g)
            | None => mret ()
            end
        | None => mret ()
        end);
   w ← get;
   if bool_decide (current_engine_time w < when) then
     let w := set_tags (<[tag := when]> (_tags (sched w))) w in
     let current_first :=
       match _scheduled_events (sched w) with
       | e :: _ => e.1
       | [] => MAX_DT
       end in
     let w := set_events
                (sl_add (when, default ""%string tag)
                        (_scheduled_events (sched w))) w in
     let next := next_scheduled_time (sched w) in
     if bool_decide (next < current_first)
     then put (graph_schedule_node (node_ndx w) next w)
     else put w
   else mret ()) w.

(** The time [schedule] compares the new head with. *)
Definition current_first (s : NodeSchedulerImpl) : Z :=
  match _scheduled_events s with
  | e :: _ => e.1
  | [] => MAX_DT
  end.

End WithSentinels.

End Scheduler.

(** ** [NodeImpl] (hg/_impl/_runtime/_node.py) *)

Module Node.

(** What [eval] reads of a time-series input: its [valid] and [modified]
    properties at the moment of the evaluation. *)
Record TimeSeriesInput : Type := mkInput {
  valid : bool;
  modified : bool
}.

(** The fields of the signature that [eval] reads:
    the keys of [time_series_inputs], in the order of the mapping, and
    [valid_inputs], [None] or the names in the order the set yields them. *)
Record NodeSignature : Type := mkSignature {
  time_series_inputs : list string;
  valid_inputs : option (list string)
}.

(** What a user function that is handed nothing of the node does when
    called: it returns a value, [None] for Python's [None], or raises.
    A function that receives the scheduler or the output of the node by
    injection can also change them; such functions are [user_fn] below. *)
Inductive eval_result (V : Type) : Type :=
| Returns (out : option V)
| Raises (e : exn).
Arguments Returns {V} out.
Arguments Raises {V} e.

Section WithUserCode.
Context {Kwargs V : Type}.

Record NodeImpl : Type := mkNode {
  node_ndx : nat;
  signature : NodeSignature;
  eval_fn : Kwargs → eval_result V;
  input : option (gmap string TimeSeriesInput);
  _scheduler : option Scheduler.NodeSchedulerImpl;
  _kwargs : Kwargs
}.

(** The node with what it reaches and what it calls: the clock, the
    graph ([schedule_node]), the user function (each call logged with its
    arguments) and the output (each [apply_result] logged with its
    argument). *)
Record world : Type := mkWorld {
  node : NodeImpl;
  current_engine_time : Z;
  schedule_node_calls : list (nat * Z);
  eval_fn_calls : list Kwargs;
  apply_result_calls : list V
}.

(** The call of the [eval_fn] of the record: logged, and with no effect
    on the node. The call of a function that acts on the node is
    [call_user] below. *)
Definition call_eval_fn : M world (option V) := λ w,
  let w' := mkWorld (node w) (current_engine_time w) (schedule_node_calls w)
                    (eval_fn_calls w ++ [_kwargs (node w)])
                    (apply_result_calls w) in
  match eval_fn (node w) (_kwargs (node w)) with
  | Returns out => Return w' out
  | Raises e => Raise w' e
  end.

Definition output_apply_result (v : V) : M world () := λ w,
  Return (mkWorld (node w) (current_engine_time w) (schedule_node_calls w)
                  (eval_fn_calls w) (apply_result_calls w ++ [v])) ().

(** Running a method of the node's scheduler object. *)
Definition to_scheduler_world (s : Scheduler.NodeSchedulerImpl) (w : world)
  : Scheduler.world :=
  Scheduler.mkWorld s (current_engine_time w) (node_ndx (node w))
                    (schedule_node_calls w).

Definition of_scheduler_world (sw : Scheduler.world) (w : world) : world :=
  let n := node w in
  mkWorld (mkNode (node_ndx n) (signature n) (eval_fn n) (input n)
                  (Some (Scheduler.sched sw)) (_kwargs n))
          (current_engine_time w) (Scheduler.schedule_node_calls sw)
          (eval_fn_calls w) (apply_result_calls w).

Definition on_scheduler {A} (c : M Scheduler.world A) : M world A := λ w,
  match _scheduler (node w) with
  | None => Raise w AttributeError
  | Some s =>
      match c (to_scheduler_world s w) with
      | Return sw a => Return (of_scheduler_world sw w) a
      | Raise sw e => Raise (of_scheduler_world sw w) e
      end
  end.

(** [all(self.input[k].valid for k in args)]: the generator is consumed
    in order and stops at the first invalid input; looking up a name the
    bundle does not have raises [KeyError]. *)
Fixpoint all_valid (b : gmap string TimeSeriesInput) (args : list string)
  : exn + bool :=
  match args with
  | [] => inr true
  | k :: args' =>
      match b !! k with
      | None => inl KeyError
      | Some i => if valid i then all_valid b args' else inr false
      end
  end.

(** [any(self.input[k].valid for k in args)] *)
Fixpoint any_valid (b : gmap string TimeSeriesInput) (args : list string)
  : exn + bool :=
  match args with
  | [] => inr false
  | k :: args' =>
      match b !! k with
      | None => inl KeyError
      | Some i => if valid i then inr true else any_valid b args'
      end
  end.

Definition lift_check (c : exn + bool) : M world bool :=
  match c with
  | inl e => raise e
  | inr b => mret b
  end.

(** The names the validity check ranges over. *)
Definition checked_inputs (sg : NodeSignature) : list string :=
  match valid_inputs sg with
  | Some names => names
  | None => time_series_inputs sg
  end.

(** The first part of [eval], up to the call of the user function:
    [true] when the evaluation goes on, [false] for either [return]. A
    bundle that is present is true in a condition, as its class defines
    neither [__bool__] nor [__len__]. *)
Definition eval_gate (scheduled : bool) : M world bool := λ w,
  match input (node w) with
  | None => Return w true
  | Some b =>
      let args := checked_inputs (signature (node w)) in
      (ok ← lift_check (all_valid b args);
       if negb ok then mret false
       else
         match _scheduler (node w) with
         | None => mret true
         | Some _ =>
             if scheduled then mret true
             else
               any ← lift_check (any_valid b args);
               mret any
         end) w
  end.

(** [eval] of a node whose [eval_fn] is the function of the record;
    [eval_with] below is the same method for a function that acts on the
    node. *)
Definition eval : M world () := λ w,
  let scheduled :=
    match _scheduler (node w) with
    | None => false
    | Some s => Scheduler.is_scheduled_now s (current_engine_time w)
    end in
  (go ← eval_gate scheduled;
   if negb go then mret ()
   else
     out ← call_eval_fn;
     _ ← match out with
         | Some v => output_apply_result v
         | None => mret ()
         end;
     if scheduled then on_scheduler Scheduler.advance else mret ()) w.

(** The user function as the source runs it when its arguments carry
    injected objects of the node (the scheduler, the output): besides
    returning a value or raising, the call may change what those objects
    reach, so it is an action on the world of the node. *)
Definition user_fn : Type := Kwargs → M world (option V).

(** The call of [eval_fn] on the keyword arguments [_kwargs] for such a
    function, the call logged before the function runs. *)
Definition call_user (f : user_fn) : M world (option V) := λ w,
  f (_kwargs (node w))
    (mkWorld (node w) (current_engine_time w) (schedule_node_calls w)
             (eval_fn_calls w ++ [_kwargs (node w)])
             (apply_result_calls w)).

(** [eval] with the user function [f] in the place of the call of
    [eval_fn]; all the rest is [eval]. *)
Definition eval_with (f : user_fn) : M world () := λ w,
  let scheduled :=
    match _scheduler (node w) with
    | None => false
    | Some s => Scheduler.is_scheduled_now s (current_engine_time w)
    end in
  (go ← eval_gate scheduled;
   if negb go then mret ()
   else
     out ← call_user f;
     _ ← match out with
         | Some v => output_apply_result v
         | None => mret ()
         end;
     if scheduled then on_scheduler Scheduler.advance else mret ()) w.

(** The [eval_fn] of the node record, a function that is handed nothing
    it could change, as a user function. *)
Definition unchanging (fn : Kwargs → eval_result V) : user_fn := λ kw w,
  match fn kw with
  | Returns out => Return w out
  | Raises e => Raise w e
  end.

(** The inputs let the evaluation through: there is no bundle, or every
    checked input is valid. *)
Definition inputs_valid (w : world) : Prop :=
  match input (node w) with
  | Some b => all_valid b (checked_inputs (signature (node w))) = inr true
  | None => True
  end.

End WithUserCode.

Arguments NodeImpl : clear implicits.
Arguments world : clear implicits.

(** A node whose one input is valid and was not modified at the engine
    time, and whose scheduler exists and has nothing scheduled: the user
    function returns [1]. *)
Definition idle_node : world () Z :=
  mkWorld
    (mkNode 0 (mkSignature ["ts"%string] None) (λ _, Returns (Some 1))
            (Some {[ "ts"%string := mkInput true false ]})
            (Some Scheduler.reset_scheduler) ())
    5 [] [] [].

(** A timer: a user function that asks the injected scheduler for a
    wake-up at time 12 under the tag ["a"], then returns [1] or, when
    [fails], raises. *)
Definition timer_fn (fails : bool) : @user_fn () Z := λ _,
  _ ← on_scheduler (Scheduler.schedule 0 100 12 (Some "a"%string));
  if fails then raise RuntimeError else mret (Some 1).

(** A node woken by its scheduler at time 5, with a later wake-up at 9;
    its input is valid and was not modified. *)
Definition woken_node (f : () → eval_result Z) : world () Z :=
  mkWorld
    (mkNode 0 (mkSignature ["ts"%string] None) f
            (Some {[ "ts"%string := mkInput true false ]})
            (Some (Scheduler.mkScheduler [(5, "a"%string); (9, "b"%string)]
                     {[ Some "a"%string := 5; Some "b"%string := 9 ]}))
            ())
    5 [] [] [].

End Node.

(** ** [GeneratorNodeImpl] (hg/_impl/_runtime/_node.py) *)

Module Generator.

Section WithValues.
Context {Kwargs V : Type}.

(** What the generator yields: a tuple [(time, out)], either component of
    which may be [None]. *)
Definition tick : Type := option Z * option V.

(** The generator object is the list of the tuples it has yet to yield;
    [next(self.generator, (None, None))] takes the head, and gives the
    default once the list is empty. *)
Record GeneratorNodeImpl : Type := mkNode {
  node_ndx : nat;
  eval_fn : Kwargs → list tick;
  _kwargs : Kwargs;
  generator : list tick;
  next_value : option V
}.

(** The node with the clock, the graph ([schedule_node] calls logged) and
    the output (each [apply_result] logged with the engine time of the
    call). *)
Record world : Type := mkWorld {
  node : GeneratorNodeImpl;
  current_engine_time : Z;
  schedule_node_calls : list (nat * Z);
  apply_result_calls : list (Z * V)
}.

Definition set_generator (g : list tick) (w : world) : world :=
  let n := node w in
  mkWorld (mkNode (node_ndx n) (eval_fn n) (_kwargs n) g (next_value n))
          (current_engine_time w) (schedule_node_calls w)
          (apply_result_calls w).

Definition set_next_value (v : option V) (w : world) : world :=
  let n := node w in
  mkWorld (mkNode (node_ndx n) (eval_fn n) (_kwargs n) (generator n) v)
          (current_engine_time w) (schedule_node_calls w)
          (apply_result_calls w).

Definition output_apply_result (v : V) (w : world) : world :=
  mkWorld (node w) (current_engine_time w) (schedule_node_calls w)
          (apply_result_calls w ++ [(current_engine_time w, v)]).

Definition graph_schedule_node (ndx : nat) (t : Z) (w : world) : world :=
  mkWorld (node w) (current_engine_time w)
          (schedule_node_calls w ++ [(ndx, t)]) (apply_result_calls w).

Definition start (w : world) : world :=
  let w := set_generator (eval_fn (node w) (_kwargs (node w))) w in
  graph_schedule_node (node_ndx (node w)) (current_engine_time w) w.

(** The second [if] of [eval]: the cached value, if any, is applied. *)
Definition apply_cached (w : world) : world :=
  match next_value (node w) with
  | Some c => set_next_value None (output_apply_result c w)
  | None => w
  end.

(** The part of [eval] after the first [if]: the cached value is applied,
    then a tuple with both components is cached and the node scheduled
    at its time. *)
Definition eval_tail (time : option Z) (out : option V) (w : world) : world :=
  let w := apply_cached w in
  match time, out with
  | Some t, Some v =>
      graph_schedule_node (node_ndx (node w)) t (set_next_value (Some v) w)
  | _, _ => w
  end.

(** [eval], by recursion on what the generator has yet to yield: [g] is
    the generator at the call, and the recursive call of the source is
    the one on the rest of it. (A generator that never stops yielding
    tuples for the current instant would make the source recurse without
    end; a list cannot.) *)
Fixpoint eval_from (g : list tick) (w : world) : world :=
  match g with
  | [] => eval_tail None None (set_generator [] w)
  | (time, out) :: g' =>
      let w := set_generator g' w in
      match time, out with
      | Some t, Some v =>
          if bool_decide (t ≤ current_engine_time w) then
            eval_from g' (set_next_value None (output_apply_result v w))
          else eval_tail time out w
      | _, _ => eval_tail time out w
      end
  end.

Definition eval (w : world) : world := eval_from (generator (node w)) w.

(** The engine moving the clock to [t] before it evaluates the node. *)
Definition at_time (t : Z) (w : world) : world :=
  mkWorld (node w) t (schedule_node_calls w) (apply_result_calls w).

(** Whether a tuple is applied at once at engine time [now]: both
    components are there and the time is not in the future. *)
Definition immediate (now : Z) (tk : tick) : bool :=
  match tk with
  | (Some t, Some _) => bool_decide (t ≤ now)
  | _ => false
  end.

Definition head_immediate (now : Z) (g : list tick) : bool :=
  match g with
  | [] => false
  | tk :: _ => immediate now tk
  end.

(** The first branch of [eval], before it calls itself: the value is
    applied and nothing is cached any more. *)
Definition apply_now (v : V) (w : world) : world :=
  set_next_value None (output_apply_result v w).

(** The tuples of a generator that yields a time and a value each time. *)
Definition ticks (l : list (Z * V)) : list tick :=
  (λ p, (Some p.1, Some p.2)) <$> l.

(** The times of [l] increase strictly, starting after [now]. *)
Fixpoint increasing_from (now : Z) (l : list (Z * V)) : Prop :=
  match l with
  | [] => True
  | p :: l' => now < p.1 ∧ increasing_from p.1 l'
  end.

(** The engine evaluating the node at each of the [times] in turn. *)
Definition run_at (times : list Z) (w : world) : world :=
  foldl (λ w t, eval (at_time t w)) w times.

(** What applying the cached value at the current time adds to the calls
    of [apply_result]. *)
Definition cached_call (w : world) : list (Z * V) :=
  match next_value (node w) with
  | Some c => [(current_engine_time w, c)]
  | None => []
  end.

End WithValues.

Arguments GeneratorNodeImpl : clear implicits.
Arguments world : clear implicits.

(** A generator that yields two values for the same instant, started at
    engine time 0. *)
Definition twice_at_5 : world () Z :=
  mkWorld (mkNode 0 (λ _, [(Some 5, Some 1); (Some 5, Some 2)]) () [] None)
          0 [] [].

(** A generator with increasing times, about to yield the tuple for the
    instant the clock is at. *)
Definition in_step : world () Z :=
  mkWorld (mkNode 0 (λ _, []) () [(Some 5, Some 1); (Some 9, Some 2)] None)
          5 [] [].

End Generator.

(** ** [PythonPushQueueNodeImpl] and [_SenderReceiverState]
    (hg/_impl/_runtime/_node.py) *)

Module PushQueue.

Section WithValues.
Context {V : Type}.

(** The receiver object. The lock only makes each method atomic; the
    context it points to is the [push_has_pending_values] flag of the
    world below. *)
Record _SenderReceiverState : Type := mkReceiver {
  queue : list V;
  stopped : bool
}.

(** The receiver object is shared: the node holds it in [self.receiver]
    and the user function was given it as the sender at [start]. The
    world keeps the one object, and the node's attribute says whether the
    node still points to it ([true]) or holds [None]. *)
Record world : Type := mkWorld {
  receiver_object : _SenderReceiverState;
  node_receiver : bool;
  push_has_pending_values : bool;
  apply_result_calls : list V
}.

(** Modelled from the spec: [ExecutionContext.mark_push_has_pending_values]
    (the context class is not among the sources); it sets the shared
    "push has pending values" flag of the context. *)
Definition mark_push_has_pending_values (w : world) : world :=
  mkWorld (receiver_object w) (node_receiver w) true (apply_result_calls w).

Definition set_receiver_object (r : _SenderReceiverState) (w : world) : world :=
  mkWorld r (node_receiver w) (push_has_pending_values w)
          (apply_result_calls w).

(** [_SenderReceiverState.enqueue], and [__call__] which is the same call:
    what the sender runs, on the object it was given. *)
Definition enqueue (value : V) : M world () := λ w,
  let r := receiver_object w in
  if stopped r then Raise w RuntimeError
  else
    let w := set_receiver_object (mkReceiver (queue r ++ [value]) (stopped r)) w in
    Return (mark_push_has_pending_values w) ().

(** [_SenderReceiverState.dequeue]: the value at the head, or, for an
    empty queue, Python's [None], here the [None] of the option. *)
Definition dequeue : M world (option V) := λ w,
  let r := receiver_object w in
  match queue r with
  | v :: q => Return (set_receiver_object (mkReceiver q (stopped r)) w) (Some v)
  | [] => Return w None
  end.

(** [start]: a fresh receiver object, handed to the user function. *)
Definition start : M world () := λ w,
  Return (mkWorld (mkReceiver [] false) true (push_has_pending_values w)
                  (apply_result_calls w)) ().

(** Which of the values a sender may push is Python's [None]. *)
Variable is_none : V → bool.

(** [eval]: the test [value is None] holds for an empty queue and also
    for a [None] that a sender pushed; such a value has left the queue
    and the method returns without marking the context or applying it. *)
Definition eval : M world () := λ w,
  if negb (node_receiver w) then Raise w AttributeError
  else
    (value ← dequeue;
     match value with
     | None => mret ()
     | Some v =>
         if is_none v then mret ()
         else
           _ ← modify mark_push_has_pending_values;
           modify (λ w, mkWorld (receiver_object w) (node_receiver w)
                                (push_has_pending_values w)
                                (apply_result_calls w ++ [v]))
     end) w.

(** The values that evaluations apply: all but Python's [None]. *)
Definition applied (values : list V) : list V :=
  filter (λ v, is_none v = false) values.

(** [stop]: the flag is set on the shared object, then the node drops its
    pointer; with no receiver ([None]) the attribute access fails. *)
Definition stop : M world () := λ w,
  if negb (node_receiver w) then Raise w AttributeError
  else
    let r := receiver_object w in
    Return (mkWorld (mkReceiver (queue r) true) false
                    (push_has_pending_values w) (apply_result_calls w)) ().

(** A sender thread calling the sender with each value in turn, an error
    of a call staying with that call. *)
Fixpoint send_all (values : list V) (w : world) : world :=
  match values with
  | [] => w
  | v :: values' => send_all values' (state_of (enqueue v w))
  end.

(** The engine evaluating the node [n] times, an error ending the
    evaluation it occurs in. *)
Fixpoint evals (n : nat) (w : world) : world :=
  match n with
  | O => w
  | S n' => evals n' (state_of (eval w))
  end.

End WithValues.

Arguments _SenderReceiverState : clear implicits.
Arguments world : clear implicits.

(** Values of the option type, with Python's [None] as [None]. *)
Definition option_is_none {A : Type} (o : option A) : bool :=
  match o with
  | None => true
  | Some _ => false
  end.

End PushQueue.

(** ** [PythonTimeSeriesDictOutput] (hgraph/_impl/_types/_tsd.py) *)

Module TSD.

(** What a mapping assigned to the output sends a key to: one of the two
    markers of [hgraph._types._tsd_type], or a value for the child. *)
Inductive item (V : Type) : Type :=
| REMOVE
| REMOVE_IF_EXISTS
| Value (v : V).
Arguments REMOVE {V}.
Arguments REMOVE_IF_EXISTS {V}.
Arguments Value {V} v.

(** The calls the output makes on objects it does not own: its key
    observers, the engine, and [mark_invalid] of its base class. *)
Inductive call (K : Type) : Type :=
| OnKeyAdded (k : K)
| OnKeyRemoved (k : K)
| MarkInvalid.
Arguments OnKeyAdded {K} k.
Arguments OnKeyRemoved {K} k.
Arguments MarkInvalid {K}.

(** The bound methods handed to [add_after_evaluation_notification]. *)
Inductive callback : Set :=
| ClearKeyChanges.

Section WithKeys.
Context {K : Type} `{Countable K} {V : Type}.

(** A child output holds the value last assigned to it, [None] while it
    has none (just created, or invalidated). The key set is the value of
    the [TimeSeriesSetOutput] peer. *)
Record PythonTimeSeriesDictOutput : Type := mkTSD {
  _ts_values : gmap K (option V);
  key_set : gset K;
  _removed_items : gmap K (option V);
  _added_keys : gset K
}.

Record world : Type := mkWorld {
  tsd : PythonTimeSeriesDictOutput;
  after_evaluation_notifications : list callback;
  calls : list (call K)
}.

Definition set_tsd (d : PythonTimeSeriesDictOutput) (w : world) : world :=
  mkWorld d (after_evaluation_notifications w) (calls w).

Definition log_call (c : call K) (w : world) : world :=
  mkWorld (tsd w) (after_evaluation_notifications w) (calls w ++ [c]).

(** Modelled from the spec: [add_after_evaluation_notification] of the
    engine API (not among the sources); the callback joins those the
    engine invokes after the drain. *)
Definition add_after_evaluation_notification (cb : callback) (w : world)
  : world :=
  mkWorld (tsd w) (after_evaluation_notifications w ++ [cb]) (calls w).

Definition __delitem__ (k : K) : M world () := λ w,
  let d := tsd w in
  match _ts_values d !! k with
  | None => Raise w KeyError
  | Some child =>
      let d := mkTSD (delete k (_ts_values d)) (key_set d ∖ {[k]})
                     (<[k := child]> (_removed_items d)) (_added_keys d) in
      Return (log_call (OnKeyRemoved k) (set_tsd d w)) ()
  end.

Definition _create (key : K) : M world () := λ w,
  let d := tsd w in
  let d := mkTSD (<[key := None]> (_ts_values d)) ({[key]} ∪ key_set d)
                 (_removed_items d) (_added_keys d) in
  Return (log_call (OnKeyAdded key) (set_tsd d w)) ().

(** Modelled from the spec: [get_or_create] of the base class
    [TimeSeriesDictOutput] (hgraph/_types/_tsd_type.py, not among the
    sources): "if absent, create child output, add to key-set, add to
    [added_keys], notify observers [on_key_added(k)]". The creation is
    [_create] above, which the sources have. *)
Definition get_or_create (k : K) : M world () := λ w,
  match _ts_values (tsd w) !! k with
  | Some _ => Return w ()
  | None =>
      (_ ← _create k;
       modify (λ w, let d := tsd w in
                    set_tsd (mkTSD (_ts_values d) (key_set d)
                                   (_removed_items d) ({[k]} ∪ _added_keys d))
                            w)) w
  end.

(** [child.value = v] on the child output of key [k]. *)
Definition set_child_value (k : K) (v : V) : M world () := λ w,
  let d := tsd w in
  Return (set_tsd (mkTSD (<[k := Some v]> (_ts_values d)) (key_set d)
                         (_removed_items d) (_added_keys d)) w) ().

Definition invalidate : M world () := λ w,
  let d := tsd w in
  Return (log_call MarkInvalid
            (set_tsd (mkTSD ((λ _, None) <$> _ts_values d) (key_set d)
                            (_removed_items d) (_added_keys d)) w)) ().

(** The body of the loop of the [value] setter, for one pair. *)
Definition apply_item (k : K) (v_ : item V) : M world () :=
  match v_ with
  | REMOVE => __delitem__ k
  | REMOVE_IF_EXISTS =>
      w ← get;
      match _ts_values (tsd w) !! k with
      | None => mret ()
      | Some _ => __delitem__ k
      end
  | Value v => _ ← get_or_create k; set_child_value k v
  end.

(** The loop of the [value] setter over the pairs of the mapping, in the
    order the mapping yields them. *)
Fixpoint apply_items (items : list (K * item V)) : M world () :=
  match items with
  | [] => mret ()
  | (k, v_) :: rest => _ ← apply_item k v_; apply_items rest
  end.

(** Whether a Python [dict] or [set] is true in a condition. *)
Definition nonempty_map (m : gmap K (option V)) : bool :=
  bool_decide (m ≠ ∅).
Definition nonempty_set (s : gset K) : bool := bool_decide (s ≠ ∅).

(** The [value] setter; [None] is Python's [None]. *)
Definition set_value (v : option (list (K * item V))) : M world () :=
  match v with
  | None => invalidate
  | Some items =>
      _ ← apply_items items;
      w ← get;
      if nonempty_map (_removed_items (tsd w))
         || nonempty_set (_added_keys (tsd w))
      then modify (add_after_evaluation_notification ClearKeyChanges)
      else mret ()
  end.

Definition _clear_key_changes (w : world) : world :=
  let d := tsd w in
  set_tsd (mkTSD (_ts_values d) (key_set d) ∅ ∅) w.

Definition run_callback (cb : callback) (w : world) : world :=
  match cb with
  | ClearKeyChanges => _clear_key_changes w
  end.

(** Modelled from the spec: the end of a drain in the engine loop (not
    among the sources): "after the drain, invoke registered
    after-evaluation callbacks, then clear them". *)
Definition after_evaluation (w : world) : world :=
  let w' := foldl (λ w cb, run_callback cb w) w
                  (after_evaluation_notifications w) in
  mkWorld (tsd w') [] (calls w').

(** The [value] getter: the values of the children that are valid. *)
Definition value (d : PythonTimeSeriesDictOutput) : gmap K V :=
  omap id (_ts_values d).

(** The key set holds exactly the keys that have a child. *)
Definition keys_in_sync (d : PythonTimeSeriesDictOutput) : Prop :=
  dom (_ts_values d) = key_set d.


(** The bookkeeping of one evaluation is empty. *)
Definition bookkeeping_empty (d : PythonTimeSeriesDictOutput) : Prop :=
  _removed_items d = ∅ ∧ _added_keys d = ∅.

End WithKeys.

Arguments PythonTimeSeriesDictOutput K {_ _} V.
Arguments world K {_ _} V.

(** A dictionary output with the one key [1], and nothing pending. *)
Definition one_key : world Z Z :=
  mkWorld (mkTSD {[ 1 := Some 10 ]} {[ 1 ]} ∅ ∅) [] [].

End TSD.

(** ** [PythonTimeSeriesReference] and [PythonTimeSeriesReferenceOutput]
    (hgraph/_impl/_types/_ref.py) *)

Module Ref.

(** The classes of time-series objects: an output class or an input class
    of one of the shapes. They are the concrete classes objects are
    created from, none derived from another, so a class is a subclass of
    itself only. *)
Inductive shape : Set := TS | TSB | TSL | TSS | TSD | REF.

Inductive py_type : Set :=
| OutputType (s : shape)
| InputType (s : shape).

#[global] Instance shape_eq_dec : EqDecision shape.
Proof. solve_decision. Defined.
#[global] Instance py_type_eq_dec : EqDecision py_type.
Proof. solve_decision. Defined.

(** [issubclass(tp, TimeSeriesOutput)] *)
Definition is_output_type (tp : py_type) : bool :=
  match tp with OutputType _ => true | InputType _ => false end.

(** Outputs are named by their identity. *)
Definition output_id : Type := Z.

(** An input object: its class, the output it is bound to ([_output]),
    what its [last_modified_time] property returns, and the inputs that
    iterating it yields ([children]): the [_ts_values] of a list input,
    the [_items] of a reference input ([None] as the empty list). For the
    classes whose iteration is not among the sources [iterable] says
    whether the object can be iterated at all. *)
#[warnings="-register-all"]
Inductive TimeSeriesInput : Type :=
| mkInput (cls : py_type) (_output : option output_id)
          (last_modified_time : Z) (iterable : bool)
          (children : list TimeSeriesInput).

Definition cls (i : TimeSeriesInput) : py_type :=
  match i with mkInput c _ _ _ _ => c end.
Definition _output (i : TimeSeriesInput) : option output_id :=
  match i with mkInput _ o _ _ _ => o end.
Definition last_modified_time (i : TimeSeriesInput) : Z :=
  match i with mkInput _ _ t _ _ => t end.
Definition iterable (i : TimeSeriesInput) : bool :=
  match i with mkInput _ _ _ b _ => b end.
Definition children (i : TimeSeriesInput) : list TimeSeriesInput :=
  match i with mkInput _ _ _ _ cs => cs end.

Definition set_children (cs : list TimeSeriesInput) (i : TimeSeriesInput)
  : TimeSeriesInput :=
  mkInput (cls i) (_output i) (last_modified_time i) (iterable i) cs.

(** [isinstance(ts_input, tp)] *)
Definition isinstance (i : TimeSeriesInput) (tp : py_type) : bool :=
  bool_decide (cls i = tp).

(** A reference value. [Invalid] has [valid = False] and nothing else;
    the other two have [valid = True], [has_peer] true for [Peer] and
    false for [NonPeer], the recorded type [tp], and [output] or
    [items]. *)
#[warnings="-register-all"]
Inductive PythonTimeSeriesReference : Type :=
| Invalid
| Peer (tp : option py_type) (output : output_id)
| NonPeer (tp : option py_type) (items : list PythonTimeSeriesReference).

Definition tp (r : PythonTimeSeriesReference) : option py_type :=
  match r with
  | Invalid => None
  | Peer t _ | NonPeer t _ => t
  end.


(** What the constructor is given as [ts]: an output, a reference input
    (of which it reads [value]), another input with a peer (of which it
    reads [output]), or an input without a peer (which it iterates). *)
#[warnings="-register-all"]
Inductive ts_arg : Type :=
| AnOutput (s : shape) (o : output_id)
| AReferenceInput (value : PythonTimeSeriesReference)
| APeeredInput (s : shape) (o : output_id)
| AFreeInput (s : shape) (items : list ts_arg).

(** [PythonTimeSeriesReference(ts)], [from_items] left out. *)
Fixpoint reference_of (ts : ts_arg) : exn + PythonTimeSeriesReference :=
  match ts with
  | AnOutput s o => inr (Peer (Some (OutputType s)) o)
  | AReferenceInput ref =>
      match ref with
      | Invalid => inl AttributeError
      | Peer t o => inr (Peer t o)
      | NonPeer t rs => inr (NonPeer t rs)
      end
  | APeeredInput s o => inr (Peer (Some (InputType s)) o)
  | AFreeInput s items =>
      match
        (fix each (l : list ts_arg) : exn + list PythonTimeSeriesReference :=
           match l with
           | [] => inr []
           | a :: l' =>
               match reference_of a with
               | inl e => inl e
               | inr r =>
                   match each l' with
                   | inl e => inl e
                   | inr rs => inr (r :: rs)
                   end
               end
           end) items
      with
      | inl e => inl e
      | inr rs => inr (NonPeer (Some (InputType s)) rs)
      end
  end.

(** [PythonTimeSeriesReference.__init__] *)
Definition make_reference (ts : option ts_arg)
    (from_items : option (list PythonTimeSeriesReference))
  : exn + PythonTimeSeriesReference :=
  match ts, from_items with
  | None, None => inr Invalid
  | _, Some (r :: rs) => inr (NonPeer None (r :: rs))
  | Some a, _ => reference_of a
  | None, Some [] => inl AttributeError
  end.

(** The type check of [bind_input]: [true] when [TypeError] is raised. *)
Definition rejects (r : PythonTimeSeriesReference) (i : TimeSeriesInput)
  : bool :=
  match tp r with
  | Some t => negb (is_output_type t) && negb (isinstance i t)
  | None => false
  end.

(** How [zip(ts_input, ...)] iterates an input. A list input has
    [__iter__], over its [_ts_values] (hgraph/_types/_tsl_type.py). A
    reference input has no [__iter__] but a [__getitem__] that appends
    new inputs until the index exists and so never ends the iteration.
    For the other classes the object says it. *)
Inductive iteration : Set := NotIterable | Fixed | Growing.

Definition iteration_of (i : TimeSeriesInput) : iteration :=
  match cls i with
  | InputType REF => Growing
  | InputType TSL => Fixed
  | _ => if iterable i then Fixed else NotIterable
  end.

(** One step of the iterator, on the children not yet visited: the next
    child and those after it, or [None] at the end. [fresh] is the input
    that [__getitem__] of a reference input appends. *)
Definition next_child (how : iteration) (fresh : TimeSeriesInput)
    (cs : list TimeSeriesInput)
  : option (TimeSeriesInput * list TimeSeriesInput) :=
  match cs, how with
  | c :: cs', _ => Some (c, cs')
  | [], Growing => Some (fresh, [])
  | [], _ => None
  end.

Section AtEngineTime.
Variable now : Z.

(** Modelled from the spec: [bind_output] of [PythonBoundTimeSeriesInput]
    (hgraph/_impl/_types/_input.py, not among the sources), for the
    inputs that have it unchanged. "Binding replaces any previous
    binding", and the observer re-bound through a reference changes
    [last_modified_time] at the current engine time. [None] un-binds.
    The reference input has a [bind_output] of its own and the dict input
    a [do_bind_output] of its own; this function is not theirs. *)
Definition bind_output (o : option output_id) (i : TimeSeriesInput)
  : outcome TimeSeriesInput () :=
  Return (mkInput (cls i) o now (iterable i) (children i)) ().

(** [ts_input.bind_output(output)] is the method of the class of the
    input, whatever that class is: it may bind, raise, or change the
    input in any other way. *)
Variable bind_output_of :
  option output_id → TimeSeriesInput → outcome TimeSeriesInput ().

(** [PythonTimeSeriesReferenceInput(_owning_node=..., _parent_input=self)],
    the input that [__getitem__] of a reference input appends. *)
Variable new_reference_input : TimeSeriesInput.

(** [PythonTimeSeriesReference.bind_input]. The state is the input object
    with its children, as the call leaves it. In [zip(ts_input,
    self.items)] the input is asked for its next child before the items
    are asked for theirs. *)
Fixpoint bind_input (r : PythonTimeSeriesReference) (i : TimeSeriesInput)
  : outcome TimeSeriesInput () :=
  match r with
  | Invalid => bind_output_of None i
  | Peer _ o =>
      if rejects r i then Raise i TypeError
      else bind_output_of (Some o) i
  | NonPeer _ rs =>
      if rejects r i then Raise i TypeError
      else
        match iteration_of i with
        | NotIterable => Raise i TypeError
        | how =>
            match
              (fix zip (rs : list PythonTimeSeriesReference)
                       (cs : list TimeSeriesInput)
                 : outcome (list TimeSeriesInput) () :=
                 match next_child how new_reference_input cs with
                 | None => Return cs ()
                 | Some (c, cs') =>
                     match rs with
                     | [] => Return (c :: cs') ()
                     | r' :: rs' =>
                         match bind_input r' c with
                         | Return c' _ =>
                             match zip rs' cs' with
                             | Return cs'' _ => Return (c' :: cs'') ()
                             | Raise cs'' e => Raise (c' :: cs'') e
                             end
                         | Raise c' e => Raise (c' :: cs') e
                         end
                     end
                 end) rs (children i)
            with
            | Return cs _ => Return (set_children cs i) ()
            | Raise cs e => Raise (set_children cs i) e
            end
        end
  end.

(** The loop of [bind_input] over [zip(ts_input, self.items)], the local
    recursion of [bind_input] by its name. *)
Definition bind_items (how : iteration) : list PythonTimeSeriesReference →
    list TimeSeriesInput → outcome (list TimeSeriesInput) () :=
  fix zip (rs : list PythonTimeSeriesReference) (cs : list TimeSeriesInput)
    : outcome (list TimeSeriesInput) () :=
    match next_child how new_reference_input cs with
    | None => Return cs ()
    | Some (c, cs') =>
        match rs with
        | [] => Return (c :: cs') ()
        | r' :: rs' =>
            match bind_input r' c with
            | Return c' _ =>
                match zip rs' cs' with
                | Return cs'' _ => Return (c' :: cs'') ()
                | Raise cs'' e => Raise (c' :: cs'') e
                end
            | Raise c' e => Raise (c' :: cs') e
            end
        end
    end.

(** What may be assigned to the [value] of a reference output. *)
Inductive py_value : Type :=
| PyNone
| PyReference (r : PythonTimeSeriesReference)
| PyOther.

(** The reference output: its value, the time [mark_modified] recorded
    ([None] while invalid), and the observers by identity, in the order
    they were registered (the order a [dict] iterates in). *)
Record PythonTimeSeriesReferenceOutput : Type := mkOutput {
  _value : option PythonTimeSeriesReference;
  modified_at : option Z;
  _reference_observers : list (Z * TimeSeriesInput)
}.

(** Modelled from the spec: [mark_modified] and [mark_invalid] of
    [PythonTimeSeriesOutput] (hgraph/_impl/_types/_output.py, not among
    the sources): the output is modified at the current engine time, or
    has no value any more. *)
Definition mark_modified (o : PythonTimeSeriesReferenceOutput)
  : PythonTimeSeriesReferenceOutput :=
  mkOutput (_value o) (Some now) (_reference_observers o).
Definition mark_invalid (o : PythonTimeSeriesReferenceOutput)
  : PythonTimeSeriesReferenceOutput :=
  mkOutput (_value o) None (_reference_observers o).

Definition invalidate (o : PythonTimeSeriesReferenceOutput)
  : PythonTimeSeriesReferenceOutput :=
  mark_invalid (mkOutput None (modified_at o) (_reference_observers o)).

(** The loop of the [value] setter over the observers: it stops at the
    first [bind_input] that raises. *)
Fixpoint bind_observers (r : PythonTimeSeriesReference)
    (obs : list (Z * TimeSeriesInput))
  : outcome (list (Z * TimeSeriesInput)) () :=
  match obs with
  | [] => Return [] ()
  | (id, i) :: obs' =>
      match bind_input r i with
      | Return i' _ =>
          match bind_observers r obs' with
          | Return obs'' _ => Return ((id, i') :: obs'') ()
          | Raise obs'' e => Raise ((id, i') :: obs'') e
          end
      | Raise i' e => Raise ((id, i') :: obs') e
      end
  end.

(** The [value] setter of the reference output. *)
Definition set_value (v : py_value) : M PythonTimeSeriesReferenceOutput () :=
  λ o,
  match v with
  | PyNone => Return (invalidate o) ()
  | PyOther => Raise o TypeError
  | PyReference r =>
      let o := mark_modified (mkOutput (Some r) (modified_at o)
                                       (_reference_observers o)) in
      match bind_observers r (_reference_observers o) with
      | Return obs _ => Return (mkOutput (_value o) (modified_at o) obs) ()
      | Raise obs e => Raise (mkOutput (_value o) (modified_at o) obs) e
      end
  end.

End AtEngineTime.

(** A reference input that is bound to nothing and has no items. *)
Definition unbound_reference_input : TimeSeriesInput :=
  mkInput (InputType REF) None 0 false [].

(** [observe_reference]: [self._reference_observers[id(input_)] = input_] *)
Fixpoint dict_set (id : Z) (i : TimeSeriesInput)
    (obs : list (Z * TimeSeriesInput)) : list (Z * TimeSeriesInput) :=
  match obs with
  | [] => [(id, i)]
  | (id', i') :: obs' =>
      if decide (id = id') then (id, i) :: obs'
      else (id', i') :: dict_set id i obs'
  end.

Definition observe_reference (id : Z) (input_ : TimeSeriesInput)
    (o : PythonTimeSeriesReferenceOutput) : PythonTimeSeriesReferenceOutput :=
  mkOutput (_value o) (modified_at o)
           (dict_set id input_ (_reference_observers o)).

Definition stop_observing_reference (id : Z)
    (o : PythonTimeSeriesReferenceOutput) : PythonTimeSeriesReferenceOutput :=
  mkOutput (_value o) (modified_at o)
           (filter (λ p, p.1 ≠ id) (_reference_observers o)).

(** A reference output observed by a scalar input and a set input, both
    bound to output 3 since time 1. *)
Definition observed : PythonTimeSeriesReferenceOutput :=
  mkOutput (Some (Peer (Some (OutputType TS)) 3)) (Some 1)
           [(100, mkInput (InputType TS) (Some 3) 1 false []);
            (200, mkInput (InputType TSS) (Some 3) 1 false [])].

(** A list input of two scalar inputs, not bound. *)
Definition list_of_two : TimeSeriesInput :=
  mkInput (InputType TSL) None 0 true
          [mkInput (InputType TS) None 0 false [];
           mkInput (InputType TS) None 0 false []].

(** [PythonTimeSeriesReferenceInput.__getitem__]: the list of item inputs
    is created on first use and grown with new reference inputs ([fresh])
    until it has the index; the result is [self._items[item]], [None]
    standing for the [IndexError] of a negative index before the start
    of the list. The state is [_items] ([None] while it is Python's
    [None]). *)
Definition getitem {X : Type} (fresh : X) (item : Z) (_items : option (list X))
  : option (list X) * option X :=
  let items := default [] _items in
  let items :=
    items ++ replicate (Z.to_nat (item + 1 - Z.of_nat (length items))) fresh in
  (Some items,
   if bool_decide (0 ≤ item) then items !! Z.to_nat item
   else if bool_decide (0 ≤ Z.of_nat (length items) + item)
        then items !! Z.to_nat (Z.of_nat (length items) + item)
        else None).

End Ref.

(** ** [PythonTimeSeriesDictInput], the key observer side
    (hgraph/_impl/_types/_tsd.py) *)

Module TSDInput.

(** What [on_key_removed] reads and changes of a child input: whether the
    dictionary input is its parent ([parent_input is self]), whether it is
    active, and whether it is bound to an output. *)
Record child : Type := mkChild {
  parent_is_self : bool;
  active : bool;
  bound : bool
}.

(** Modelled from the spec: [make_passive] and [un_bind_output] of the
    child inputs (their classes are not among the sources): an input
    that is made passive is no longer active, and a child that is unbound
    is no longer bound to an output. *)
Definition make_passive (c : child) : child :=
  mkChild (parent_is_self c) false (bound c).
Definition un_bind_output (c : child) : child :=
  mkChild (parent_is_self c) (active c) false.

(** The bound method handed to [add_after_evaluation_notification]. *)
Inductive callback : Set :=
| ClearKeyChanges.

Section WithKeys.
Context {K : Type} `{Countable K}.

Record PythonTimeSeriesDictInput : Type := mkInput {
  _ts_values : gmap K child;
  _removed_items : gmap K child
}.

Record world : Type := mkWorld {
  tsd : PythonTimeSeriesDictInput;
  after_evaluation_notifications : list callback
}.

(** Modelled from the spec: [add_after_evaluation_notification] of the
    engine API (not among the sources); the callback joins those the
    engine invokes after the drain. *)
Definition add_after_evaluation_notification (cb : callback) (w : world)
  : world :=
  mkWorld (tsd w) (after_evaluation_notifications w ++ [cb]).

Definition on_key_removed (key : K) : M world () := λ w,
  let w := if bool_decide (_removed_items (tsd w) = ∅)
           then add_after_evaluation_notification ClearKeyChanges w
           else w in
  let d := tsd w in
  match _ts_values d !! key with
  | None => Raise w KeyError
  | Some value =>
      if parent_is_self value then
        let value := if active value then make_passive value else value in
        Return (mkWorld (mkInput (delete key (_ts_values d))
                                 (<[key := value]> (_removed_items d)))
                        (after_evaluation_notifications w)) ()
      else
        Return (mkWorld (mkInput (<[key := un_bind_output value]>
                                    (delete key (_ts_values d)))
                                 (_removed_items d))
                        (after_evaluation_notifications w)) ()
  end.

Definition _clear_key_changes (w : world) : world :=
  mkWorld (mkInput (_ts_values (tsd w)) ∅) (after_evaluation_notifications w).

Definition run_callback (cb : callback) (w : world) : world :=
  match cb with
  | ClearKeyChanges => _clear_key_changes w
  end.

(** Modelled from the spec: the end of a drain in the engine loop (not
    among the sources): "after the drain, invoke registered
    after-evaluation callbacks, then clear them". *)
Definition after_evaluation (w : world) : world :=
  let w' := foldl (λ w cb, run_callback cb w) w
                  (after_evaluation_notifications w) in
  mkWorld (tsd w') [].

(** The output telling the input of the removal of each of [keys] in
    turn, during one drain. *)
Fixpoint keys_removed (keys : list K) : M world () :=
  match keys with
  | [] => mret ()
  | k :: keys' => _ ← on_key_removed k; keys_removed keys'
  end.

(** Whatever is in [removed_items] has its clearing registered. *)
Definition clearing_registered (w : world) : Prop :=
  _removed_items (tsd w) ≠ ∅ → after_evaluation_notifications w ≠ [].

End WithKeys.

Arguments PythonTimeSeriesDictInput K {_ _}.
Arguments world K {_ _}.

(** An input with its own child under key 1 and a child transplanted from
    another parent under key 2, both active and bound. *)
Definition two_children : world Z :=
  mkWorld (mkInput {[ 1 := mkChild true true true;
                      2 := mkChild false true true ]} ∅) [].

End TSDInput.

(** * Properties *)

(** ** The state-and-exception monad *)

Lemma bind_Return {S A B} (c : M S A) (f : A → M S B) s s' a :
  c s = Return s' a → (c ≫= f) s = f a s'.
Proof. intros Hc. unfold mbind, M_bind. by rewrite Hc. Qed.

Lemma bind_Raise {S A B} (c : M S A) (f : A → M S B) s s' e :
  c s = Raise s' e → (c ≫= f) s = Raise s' e.
Proof. intros Hc. unfold mbind, M_bind. by rewrite Hc. Qed.

(** ** The node scheduler *)

Module SchedulerSpec.
Import Scheduler.

Lemma event_ltb_le x y : event_ltb x y = true → x.1 ≤ y.1.
Proof.
  unfold event_ltb. intros Hlt.
  apply orb_true_iff in Hlt as [Hlt | Heq].
  - apply Z.ltb_lt in Hlt. lia.
  - apply andb_true_iff in Heq as [Heq _]. apply Z.eqb_eq in Heq. lia.
Qed.

Lemma event_ltb_ge x y : event_ltb x y = false → y.1 ≤ x.1.
Proof.
  unfold event_ltb. intros Hge.
  apply orb_false_iff in Hge as [Hge _]. apply Z.ltb_ge in Hge. lia.
Qed.

Lemma elem_of_sl_add x y l : y ∈ sl_add x l ↔ y = x ∨ y ∈ l.
Proof.
  induction l as [|z l IH]; simpl.
  - rewrite list_elem_of_singleton, elem_of_nil. tauto.
  - destruct (event_ltb x z).
    + by rewrite elem_of_cons.
    + rewrite !elem_of_cons, IH. tauto.
Qed.

Lemma sl_add_sorted x l : times_sorted l → times_sorted (sl_add x l).
Proof.
  unfold times_sorted. induction 1 as [|y l Hl IH Hy]; simpl.
  - repeat constructor.
  - destruct (event_ltb x y) eqn:Hxy.
    + apply event_ltb_le in Hxy. constructor; [by constructor|].
      constructor; [done|].
      eapply Forall_impl; [exact Hy|]. simpl. intros z Hz. lia.
    + apply event_ltb_ge in Hxy. constructor; [done|].
      apply Forall_forall. intros z Hz. apply elem_of_sl_add in Hz as [->|Hz].
      * done.
      * by eapply Forall_forall in Hy.
Qed.

Lemma sl_remove_sublist x l l' : sl_remove x l = Some l' → l' `sublist_of` l.
Proof.
  revert l'. induction l as [|y l IH]; intros l'; simpl; [done|].
  destruct (decide (x = y)) as [->|Hne].
  - intros [= <-]. by apply sublist_cons.
  - destruct (sl_remove x l) as [l0|]; simpl; [|done].
    intros [= <-]. apply sublist_skip. by apply IH.
Qed.

Lemma times_sorted_sublist l l' :
  l' `sublist_of` l → times_sorted l → times_sorted l'.
Proof.
  unfold times_sorted. intros Hsub Hl. revert l' Hsub.
  induction Hl as [|y l Hl IH Hy]; intros l' Hsub.
  - apply sublist_nil_r in Hsub as ->. constructor.
  - apply sublist_cons_r in Hsub as [Hsub | (l0 & -> & Hsub)].
    + by apply IH.
    + constructor; [by apply IH|].
      apply Forall_forall. intros z Hz.
      eapply Forall_forall in Hy; [exact Hy|].
      by eapply elem_of_sublist.
Qed.

Lemma pop_until_sublist until l : pop_until until l `sublist_of` l.
Proof.
  induction l as [|e l IH]; simpl; [done|].
  case_bool_decide; [by apply sublist_cons | done].
Qed.

Lemma tail_sublist {A} (l : list A) : tail l `sublist_of` l.
Proof. destruct l; simpl; [done | by apply sublist_cons]. Qed.

(** Every method keeps the entries in the order of their times. *)
Lemma reset_sorted w : times_sorted (_scheduled_events (sched (state_of (reset w)))).
Proof. constructor. Qed.

Lemma events_remove_sorted v w :
  times_sorted (_scheduled_events (sched w)) →
  times_sorted (_scheduled_events (sched (state_of (events_remove v w)))).
Proof.
  intros Hw. unfold events_remove.
  destruct (sl_remove v _) as [ev|] eqn:Hrm; simpl; [|done].
  eapply times_sorted_sublist; [by eapply sl_remove_sublist | done].
Qed.

Lemma un_schedule_sorted tag w :
  times_sorted (_scheduled_events (sched w)) →
  times_sorted (_scheduled_events (sched (state_of (un_schedule tag w)))).
Proof.
  intros Hw. unfold un_schedule. destruct tag as [g|]; simpl.
  - destruct (_tags (sched w) !! Some g) as [t|]; [|done].
    pose proof (events_remove_sorted (t, g) w Hw) as Hrm.
    unfold mbind, M_bind. destruct (events_remove (t, g) w); simpl in *; done.
  - eapply times_sorted_sublist; [apply tail_sublist | done].
Qed.

Lemma advance_sorted w :
  times_sorted (_scheduled_events (sched w)) →
  times_sorted (_scheduled_events (sched (state_of (advance w)))).
Proof.
  intros Hw. unfold advance.
  assert (times_sorted (pop_until (current_engine_time w)
                          (_scheduled_events (sched w)))) as Hpop.
  { eapply times_sorted_sublist; [apply pop_until_sublist | done]. }
  destruct (pop_until _ _); simpl; done.
Qed.

Lemma schedule_sorted MIN_DT MAX_DT when tag w :
  times_sorted (_scheduled_events (sched w)) →
  times_sorted
    (_scheduled_events (sched (state_of (schedule MIN_DT MAX_DT when tag w)))).
Proof.
  intros Hw. unfold schedule.
  set (rm := match tag with
             | Some g => match _tags (sched w) !! Some g with
                         | Some t => events_remove (t, g)
                         | None => mret ()
                         end
             | None => mret ()
             end).
  assert (times_sorted (_scheduled_events (sched (state_of (rm w))))) as Hrm.
  { subst rm. destruct tag as [g|]; [|done].
    destruct (_tags (sched w) !! Some g); [|done].
    by apply events_remove_sorted. }
  unfold mbind, M_bind. destruct (rm w) as [w1 []|w1 e]; simpl in *; [|done].
  case_bool_decide; simpl; [|done].
  case_bool_decide; simpl; by apply sl_add_sorted.
Qed.

(** The head of a sorted list of entries is the earliest of them. *)
Lemma head_earliest e l e' :
  times_sorted (e :: l) → e' ∈ e :: l → e.1 ≤ e'.1.
Proof.
  intros Hs Hin. apply StronglySorted_inv in Hs as [_ Hall].
  apply elem_of_cons in Hin as [->|Hin]; [lia|].
  by eapply Forall_forall in Hall.
Qed.

(** C10: with no scheduled events [next_scheduled_time] is the [MIN_DT]
    sentinel, which is not [MAX_DT]; with scheduled events it is the time
    of one of them, and no scheduled entry is earlier. *)
Theorem next_scheduled_time_spec (MIN_DT MAX_DT : Z) (s : NodeSchedulerImpl) :
  MIN_DT < MAX_DT →
  times_sorted (_scheduled_events s) →
  (is_scheduled s = false →
     next_scheduled_time MIN_DT s = MIN_DT ∧
     next_scheduled_time MIN_DT s ≠ MAX_DT) ∧
  (is_scheduled s = true →
     (∃ e, e ∈ _scheduled_events s ∧ next_scheduled_time MIN_DT s = e.1) ∧
     (∀ e, e ∈ _scheduled_events s → next_scheduled_time MIN_DT s ≤ e.1)).
Proof.
  intros Hlt Hs. unfold is_scheduled, next_scheduled_time.
  destruct (_scheduled_events s) as [|e l] eqn:Hev.
  - split; [|done]. intros _. split; [done | lia].
  - split; [done|]. intros _. split.
    + exists e. split; [apply elem_of_cons; by left | done].
    + intros e' He'. by eapply head_earliest.
Qed.

Lemma next_scheduled_time_spec_witness :
  let s := mkScheduler [(5, "a"%string); (7, ""%string)]
                       {[ Some "a"%string := 5; None := 7 ]} in
  0 < 100 ∧
  times_sorted (_scheduled_events s) ∧
  (is_scheduled s = false →
     next_scheduled_time 0 s = 0 ∧ next_scheduled_time 0 s ≠ 100) ∧
  (is_scheduled s = true →
     (∃ e, e ∈ _scheduled_events s ∧ next_scheduled_time 0 s = e.1) ∧
     (∀ e, e ∈ _scheduled_events s → next_scheduled_time 0 s ≤ e.1)).
Proof.
  intros s.
  assert (0 < 100) as Hlt by lia.
  assert (times_sorted (_scheduled_events s)) as Hs.
  { unfold times_sorted; simpl. repeat constructor; simpl; lia. }
  exact (conj Hlt (conj Hs (next_scheduled_time_spec 0 100 s Hlt Hs))).
Defined.

(** *** Scheduling twice with one tag *)

Section Entries.
Variable g : string.
Abbreviation carries := (λ e : event, e.2 = g).

Lemma filter_sl_add_other x l :
  x.2 ≠ g → filter carries (sl_add x l) = filter carries l.
Proof.
  intros Hx. induction l as [|y l IH]; simpl.
  - by rewrite filter_cons_False.
  - destruct (event_ltb x y); [by rewrite filter_cons_False|].
    rewrite !filter_cons. by rewrite IH.
Qed.

Lemma filter_sl_add_fresh x l :
  x.2 = g → filter carries l = [] → filter carries (sl_add x l) = [x].
Proof.
  intros Hx. induction l as [|y l IH]; simpl; intros Hl.
  - by rewrite filter_cons_True.
  - rewrite filter_cons in Hl. case_decide as Hy; [done|].
    destruct (event_ltb x y).
    + rewrite filter_cons_True by done. rewrite filter_cons_False by done.
      by rewrite Hl.
    + rewrite filter_cons_False by done. by apply IH.
Qed.

Lemma sl_remove_only x l :
  x.2 = g → filter carries l = [x] →
  ∃ l', sl_remove x l = Some l' ∧ filter carries l' = [].
Proof.
  intros Hx. induction l as [|y l IH]; simpl; intros Hl; [done|].
  rewrite filter_cons in Hl. destruct (decide (x = y)) as [<-|Hne].
  - rewrite decide_True by done. rewrite decide_True in Hl by done.
    exists l. split; [done|]. by injection Hl.
  - rewrite decide_False by done. case_decide as Hy.
    { injection Hl as Hl1 _. by subst. }
    destruct (IH Hl) as (l' & -> & Hl'). exists (y :: l'). split; [done|].
    by rewrite filter_cons_False.
Qed.

Lemma sl_remove_other x l l' :
  x.2 ≠ g → sl_remove x l = Some l' → filter carries l' = filter carries l.
Proof.
  intros Hx. revert l'. induction l as [|y l IH]; intros l'; simpl; [done|].
  destruct (decide (x = y)) as [<-|Hne].
  - rewrite decide_True by done. intros [= <-]. by rewrite filter_cons_False.
  - rewrite decide_False by done.
    destruct (sl_remove x l) as [l0|]; simpl; [|done].
    intros [= <-]. rewrite !filter_cons. by rewrite (IH l0).
Qed.

End Entries.

Section Schedule.
Variables MIN_DT MAX_DT : Z.
Abbreviation schedule := (schedule MIN_DT MAX_DT).

(** A call that is not in the future and finds the tag unknown does
    nothing. *)
Lemma schedule_past_unknown w g when :
  when ≤ current_engine_time w →
  _tags (sched w) !! Some g = None →
  schedule when (Some g) w = Return w ().
Proof.
  intros Hpast Hg. unfold schedule. rewrite Hg. simpl.
  unfold mbind, M_bind; simpl. by rewrite bool_decide_false by lia.
Qed.

(** A call in the future, on a scheduler that agrees with itself on the
    tag, returns and leaves the one entry of the call for the tag. *)
Lemma schedule_future w g when :
  tag_consistent g (sched w) →
  current_engine_time w < when →
  ∃ w', schedule when (Some g) w = Return w' () ∧
        current_engine_time w' = current_engine_time w ∧
        entries_of g (sched w') = [(when, g)] ∧
        _tags (sched w') !! Some g = Some when.
Proof.
  unfold tag_consistent, entries_of. intros Hc Hfut. unfold schedule.
  assert (∃ w1,
    (match _tags (sched w) !! Some g with
     | Some t => events_remove (t, g)
     | None => mret ()
     end) w = Return w1 () ∧
    current_engine_time w1 = current_engine_time w ∧
    filter (λ e : event, e.2 = g) (_scheduled_events (sched w1)) = [])
    as (w1 & Hrm & Hnow & Hnone).
  { destruct (_tags (sched w) !! Some g) as [t|].
    - destruct (sl_remove_only g (t, g) _ eq_refl Hc) as (l' & Hl' & Hf).
      exists (set_events l' w). unfold events_remove. rewrite Hl'. done.
    - by exists w. }
  unfold mbind, M_bind. rewrite Hrm. simpl.
  rewrite bool_decide_true by lia.
  case_bool_decide; (eexists; split; [reflexivity|]); simpl;
    rewrite lookup_insert_eq;
    (split; [done|]); (split; [|done]);
    by apply filter_sl_add_fresh.
Qed.

(** C3, as amended: on a scheduler that agrees with itself on the tag,
    with [t2] later than the engine time, and [t1] later than the engine
    time unless the tag is unknown to the scheduler, [schedule(t1, tag)]
    then [schedule(t2, tag)] both return, and exactly one scheduled entry
    carries the tag, with time [t2]. *)
Theorem schedule_twice_same_tag (w : world) (g : string) (t1 t2 : Z) :
  tag_consistent g (sched w) →
  current_engine_time w < t2 →
  current_engine_time w < t1 ∨ _tags (sched w) !! Some g = None →
  ∃ w', (_ ← schedule t1 (Some g); schedule t2 (Some g)) w = Return w' () ∧
        entries_of g (sched w') = [(t2, g)] ∧
        _tags (sched w') !! Some g = Some t2.
Proof.
  intros Hc H2 H1.
  assert (∃ w1, schedule t1 (Some g) w = Return w1 () ∧
                current_engine_time w1 = current_engine_time w ∧
                tag_consistent g (sched w1)) as (w1 & Hs1 & Hnow & Hc1).
  { destruct (decide (current_engine_time w < t1)) as [Hfut|Hpast].
    - destruct (schedule_future w g t1 Hc Hfut) as (w1 & ? & ? & He & Ht).
      exists w1. repeat split; [done..|].
      unfold tag_consistent. by rewrite He, Ht.
    - destruct H1 as [?|Hunknown]; [done|].
      exists w. split; [|done]. apply schedule_past_unknown; [lia | done]. }
  destruct (schedule_future w1 g t2 Hc1) as (w2 & Hs2 & _ & He & Ht); [lia|].
  exists w2. split; [|done].
  by rewrite (bind_Return _ _ _ _ _ Hs1).
Qed.

End Schedule.

Lemma schedule_twice_same_tag_witness :
  let w := mkWorld (mkScheduler [(30, "a"%string)] {[ Some "a"%string := 30 ]})
                   10 0 [] in
  tag_consistent "a" (sched w) ∧
  current_engine_time w < 25 ∧
  (current_engine_time w < 20 ∨ _tags (sched w) !! Some "a"%string = None) ∧
  ∃ w', (_ ← schedule 0 100 20 (Some "a"%string);
         schedule 0 100 25 (Some "a"%string)) w = Return w' () ∧
        entries_of "a" (sched w') = [(25, "a"%string)] ∧
        _tags (sched w') !! Some "a"%string = Some 25.
Proof.
  intros w.
  assert (tag_consistent "a" (sched w)) as Hc by reflexivity.
  assert (current_engine_time w < 25) as H2 by (simpl; lia).
  assert (current_engine_time w < 20 ∨
          _tags (sched w) !! Some "a"%string = None) as H1
    by (left; simpl; lia).
  exact (conj Hc (conj H2 (conj H1
           (schedule_twice_same_tag 0 100 w "a" 20 25 Hc H2 H1)))).
Defined.

(** C3 as stated fails when [t2] is not later than the engine time: at
    engine time 10, on a fresh scheduler, [schedule(20, "a")] then
    [schedule(5, "a")] both return, and no entry carries the tag. *)
Lemma schedule_twice_past_counterexample :
  ∃ w',
    (_ ← schedule 0 100 20 (Some "a"%string);
     schedule 0 100 5 (Some "a"%string))
      (mkWorld reset_scheduler 10 0 []) = Return w' () ∧
    entries_of "a" (sched w') = [] ∧
    entries_of "a" (sched w') ≠ [(5, "a"%string)].
Proof. eexists. split; [vm_compute; reflexivity|]. split; [reflexivity | done]. Qed.

(** Calls without a tag do not replace one another: both entries stay,
    with the empty string for a tag. *)
Example schedule_twice_untagged :
  _scheduled_events
    (sched (state_of ((_ ← schedule 0 100 20 None; schedule 0 100 25 None)
                        (mkWorld reset_scheduler 10 0 [])))) =
    [(20, ""%string); (25, ""%string)].
Proof. reflexivity. Qed.

(** *** [advance] *)

Lemma filter_all {A} (P : A → Prop) `{∀ x, Decision (P x)} (l : list A) :
  Forall P l → filter P l = l.
Proof.
  induction 1 as [|x l Hx Hl IH]; [done|].
  by rewrite filter_cons_True, IH.
Qed.

(** On entries in the order of their times, the loop of [advance] leaves
    exactly those later than [until]. *)
Lemma pop_until_later until l :
  times_sorted l → pop_until until l = filter (λ e : event, until < e.1) l.
Proof.
  unfold times_sorted. induction 1 as [|e l Hl IH He]; simpl; [done|].
  case_bool_decide as Hle.
  - rewrite filter_cons_False by (simpl; lia). done.
  - rewrite filter_cons_True by (simpl; lia). f_equal. symmetry.
    apply filter_all. eapply Forall_impl; [exact He|]. simpl. intros; lia.
Qed.

Lemma advance_keeps_later (w : world) :
  times_sorted (_scheduled_events (sched w)) →
  ∃ w', advance w = Return w' () ∧
        _scheduled_events (sched w') =
          filter (λ e : event, current_engine_time w < e.1)
                 (_scheduled_events (sched w)) ∧
        _tags (sched w') = _tags (sched w).
Proof.
  intros Hs. unfold advance.
  rewrite (pop_until_later (current_engine_time w) _ Hs).
  destruct (filter _ _); eexists; (split; [done|]); done.
Qed.

Lemma later_not_scheduled_now (s : NodeSchedulerImpl) (now : Z) :
  (∀ e, e ∈ _scheduled_events s → now < e.1) → is_scheduled_now s now = false.
Proof.
  unfold is_scheduled_now. destruct (_scheduled_events s) as [|e ev]; [done|].
  intros Hlater. apply Z.eqb_neq. specialize (Hlater e ltac:(by left)). lia.
Qed.

(** X1: [advance] on entries in time order drops every entry that is not
    later than the engine time and keeps all the others, leaves [_tags]
    alone, and asks the graph to schedule the node exactly when an entry
    is left, at the time of the earliest one; the scheduler is then not
    scheduled now. *)
Theorem advance_drops_due_entries (w : world) :
  times_sorted (_scheduled_events (sched w)) →
  ∃ w', advance w = Return w' () ∧
        _scheduled_events (sched w') =
          filter (λ e : event, current_engine_time w < e.1)
                 (_scheduled_events (sched w)) ∧
        _tags (sched w') = _tags (sched w) ∧
        current_engine_time w' = current_engine_time w ∧
        schedule_node_calls w' =
          schedule_node_calls w ++
            match _scheduled_events (sched w') with
            | [] => []
            | e :: _ => [(node_ndx w, e.1)]
            end ∧
        is_scheduled_now (sched w') (current_engine_time w) = false.
Proof.
  intros Hs. unfold advance.
  pose proof (pop_until_later (current_engine_time w) _ Hs) as Hpop.
  assert (∀ e, e ∈ pop_until (current_engine_time w)
                             (_scheduled_events (sched w)) →
               current_engine_time w < e.1) as Hlater.
  { intros e. rewrite Hpop, list_elem_of_filter. tauto. }
  destruct (pop_until _ _) as [|e ev] eqn:Hev; eexists; (split; [done|]);
    simpl; rewrite <- Hpop; repeat split; try by rewrite app_nil_r.
  unfold is_scheduled_now; simpl. apply Z.eqb_neq.
  specialize (Hlater e ltac:(by left)). lia.
Qed.

Lemma advance_drops_due_entries_witness :
  let w := mkWorld (mkScheduler [(3, "a"%string); (5, ""%string); (8, "b"%string)]
                                {[ Some "a"%string := 3; None := 5;
                                   Some "b"%string := 8 ]})
                   5 2 [] in
  times_sorted (_scheduled_events (sched w)) ∧
  ∃ w', advance w = Return w' () ∧
        _scheduled_events (sched w') =
          filter (λ e : event, current_engine_time w < e.1)
                 (_scheduled_events (sched w)) ∧
        _tags (sched w') = _tags (sched w) ∧
        current_engine_time w' = current_engine_time w ∧
        schedule_node_calls w' =
          schedule_node_calls w ++
            match _scheduled_events (sched w') with
            | [] => []
            | e :: _ => [(node_ndx w, e.1)]
            end ∧
        is_scheduled_now (sched w') (current_engine_time w) = false.
Proof.
  intros w.
  assert (times_sorted (_scheduled_events (sched w))) as Hs.
  { unfold times_sorted; simpl. repeat constructor; simpl; lia. }
  exact (conj Hs (advance_drops_due_entries w Hs)).
Defined.

(** *** [schedule] and the graph *)

Section Notify.
Variables MIN_DT MAX_DT : Z.
Abbreviation schedule := (schedule MIN_DT MAX_DT).

Lemma schedule_fresh_tag (w : world) (when : Z) (g : string) :
  current_engine_time w < when →
  _tags (sched w) !! Some g = None →
  ∃ w', schedule when (Some g) w = Return w' () ∧
        _scheduled_events (sched w') =
          sl_add (when, g) (_scheduled_events (sched w)) ∧
        _tags (sched w') = <[Some g := when]> (_tags (sched w)).
Proof.
  intros Hfut Hg. unfold schedule. rewrite Hg.
  unfold mbind, M_bind. simpl. rewrite bool_decide_true by lia.
  case_bool_decide; eexists; (split; [done|]); done.
Qed.

(** X2: a call of [schedule] for the future that has no entry to replace
    (no tag, or a tag the scheduler does not know) adds its entry, records
    the tag, and calls [schedule_node] on the graph exactly when its time
    is earlier than the time of the head before the call ([MAX_DT] with
    no head), passing that time. *)
Theorem schedule_notifies_when_earlier (w : world) (when : Z)
    (tag : option string) :
  current_engine_time w < when →
  (∀ g, tag = Some g → _tags (sched w) !! Some g = None) →
  ∃ w', schedule when tag w = Return w' () ∧
        _scheduled_events (sched w') =
          sl_add (when, default ""%string tag) (_scheduled_events (sched w)) ∧
        _tags (sched w') = <[tag := when]> (_tags (sched w)) ∧
        schedule_node_calls w' =
          schedule_node_calls w ++
            (if bool_decide (when < current_first MAX_DT (sched w))
             then [(node_ndx w, when)] else []).
Proof.
  intros Hfut Hfresh. unfold schedule.
  assert ((match tag with
           | Some g => match _tags (sched w) !! Some g with
                       | Some t => events_remove (t, g)
                       | None => mret ()
                       end
           | None => mret ()
           end) w = Return w ()) as Hrm.
  { destruct tag as [g|]; [|done]. by rewrite (Hfresh g eq_refl). }
  unfold mbind, M_bind. rewrite Hrm. simpl.
  rewrite bool_decide_true by lia. unfold current_first, next_scheduled_time.
  destruct (_scheduled_events (sched w)) as [|e ev] eqn:Hev; simpl.
  - case_bool_decide; eexists; (split; [done|]); simpl;
      rewrite ?app_nil_r; done.
  - destruct (event_ltb (when, default ""%string tag) e) eqn:Hlt; simpl.
    + apply event_ltb_le in Hlt. simpl in Hlt.
      repeat case_bool_decide; try lia;
        eexists; (split; [done|]); simpl; rewrite ?app_nil_r; done.
    + apply event_ltb_ge in Hlt. simpl in Hlt.
      rewrite bool_decide_false by lia. rewrite bool_decide_false by lia.
      eexists. split; [done|]. simpl. by rewrite app_nil_r.
Qed.

End Notify.

Lemma schedule_notifies_when_earlier_witness :
  let w := mkWorld (mkScheduler [(30, "a"%string)] {[ Some "a"%string := 30 ]})
                   10 2 [] in
  current_engine_time w < 20 ∧
  (∀ g, Some "b"%string = Some g → _tags (sched w) !! Some g = None) ∧
  ∃ w', schedule 0 100 20 (Some "b"%string) w = Return w' () ∧
        _scheduled_events (sched w') =
          sl_add (20, "b"%string) (_scheduled_events (sched w)) ∧
        _tags (sched w') = <[Some "b"%string := 20]> (_tags (sched w)) ∧
        schedule_node_calls w' =
          schedule_node_calls w ++
            (if bool_decide (20 < current_first 100 (sched w))
             then [(node_ndx w, 20)] else []).
Proof.
  intros w.
  assert (current_engine_time w < 20) as Hfut by (simpl; lia).
  assert (∀ g, Some "b"%string = Some g → _tags (sched w) !! Some g = None)
    as Hfresh by (intros g [= <-]; reflexivity).
  exact (conj Hfut (conj Hfresh
           (schedule_notifies_when_earlier 0 100 w 20 (Some "b"%string)
              Hfut Hfresh))).
Defined.

(** *** [schedule], [un_schedule] and stale tags *)

Lemma sl_remove_sl_add x l : x ∉ l → sl_remove x (sl_add x l) = Some l.
Proof.
  induction l as [|y l IH]; intros Hx; simpl.
  - by rewrite decide_True.
  - apply not_elem_of_cons in Hx as [Hne Hx].
    destruct (event_ltb x y); simpl.
    + by rewrite decide_True.
    + rewrite decide_False by done. by rewrite IH.
Qed.

Lemma sl_remove_absent x l : x ∉ l → sl_remove x l = None.
Proof.
  induction l as [|y l IH]; intros Hx; simpl; [done|].
  apply not_elem_of_cons in Hx as [Hne Hx].
  rewrite decide_False by done. by rewrite IH.
Qed.

Lemma entries_of_nil_not_elem g s t :
  entries_of g s = [] → (t, g) ∉ _scheduled_events s.
Proof.
  unfold entries_of. intros Hnil Hin.
  assert ((t, g) ∈ filter (λ e : event, e.2 = g) (_scheduled_events s)) as Hf
    by by apply list_elem_of_filter.
  rewrite Hnil in Hf. by apply elem_of_nil in Hf.
Qed.

Section RoundTrip.
Variables MIN_DT MAX_DT : Z.
Abbreviation schedule := (schedule MIN_DT MAX_DT).

(** X3: scheduling for the future with a tag the scheduler does not know,
    then un-scheduling that tag, gives the scheduler back as it was: the
    same entries and the same [_tags]. *)
Theorem schedule_un_schedule_round_trip (w : world) (g : string) (when : Z) :
  tag_consistent g (sched w) →
  _tags (sched w) !! Some g = None →
  current_engine_time w < when →
  ∃ w', (_ ← schedule when (Some g); un_schedule (Some g)) w = Return w' () ∧
        sched w' = sched w.
Proof.
  intros Hc Hg Hfut.
  destruct (schedule_fresh_tag MIN_DT MAX_DT w when g Hfut Hg)
    as (w1 & Hs & Hev & Htg).
  rewrite (bind_Return _ _ _ _ _ Hs).
  unfold tag_consistent in Hc. rewrite Hg in Hc.
  unfold un_schedule. rewrite Htg, lookup_insert_eq.
  unfold mbind, M_bind, events_remove. rewrite Hev. simpl.
  rewrite sl_remove_sl_add by by apply entries_of_nil_not_elem.
  eexists. split; [done|]. simpl.
  rewrite Htg, delete_insert_id by done. by destruct (sched w).
Qed.

(** X4: [advance] pops the entry of a tag without touching [_tags]; from
    then on [schedule] and [un_schedule] with that tag look for the popped
    entry and raise [ValueError], changing nothing. *)
Theorem schedule_after_advance_raises (w : world) (g : string) (t : Z) :
  times_sorted (_scheduled_events (sched w)) →
  _tags (sched w) !! Some g = Some t →
  t ≤ current_engine_time w →
  ∃ w', advance w = Return w' () ∧
        _tags (sched w') !! Some g = Some t ∧
        (∀ when, schedule when (Some g) w' = Raise w' ValueError) ∧
        un_schedule (Some g) w' = Raise w' ValueError.
Proof.
  intros Hs Ht Hdue.
  destruct (advance_keeps_later w Hs) as (w' & Hadv & Hev & Htg).
  exists w'. split; [done|]. rewrite Htg. split; [done|].
  assert (sl_remove (t, g) (_scheduled_events (sched w')) = None) as Hrm.
  { apply sl_remove_absent. rewrite Hev, list_elem_of_filter. simpl. lia. }
  split.
  - intros when. unfold schedule. rewrite Htg, Ht.
    unfold mbind, M_bind, events_remove. by rewrite Hrm.
  - unfold un_schedule. rewrite Htg, Ht.
    unfold mbind, M_bind, events_remove. by rewrite Hrm.
Qed.

(** X5: [schedule] with a known tag and a time that is not in the future
    removes the entry of the tag and adds none, and [_tags] keeps the old
    time; a later [schedule] with the tag raises [ValueError]. *)
Theorem schedule_past_cancels (w : world) (g : string) (t when : Z) :
  tag_consistent g (sched w) →
  _tags (sched w) !! Some g = Some t →
  when ≤ current_engine_time w →
  ∃ w', schedule when (Some g) w = Return w' () ∧
        sl_remove (t, g) (_scheduled_events (sched w)) =
          Some (_scheduled_events (sched w')) ∧
        entries_of g (sched w') = [] ∧
        _tags (sched w') = _tags (sched w) ∧
        schedule_node_calls w' = schedule_node_calls w ∧
        (∀ when', schedule when' (Some g) w' = Raise w' ValueError).
Proof.
  intros Hc Ht Hpast. unfold tag_consistent in Hc. rewrite Ht in Hc.
  destruct (sl_remove_only g (t, g) _ eq_refl Hc) as (l' & Hl' & Hf).
  exists (set_events l' w).
  assert (schedule when (Some g) w = Return (set_events l' w) ()) as Hs.
  { unfold schedule. rewrite Ht. unfold mbind, M_bind, events_remove.
    rewrite Hl'. simpl. by rewrite bool_decide_false by lia. }
  split; [done|]. split; [done|]. split; [done|]. split; [done|].
  split; [done|].
  intros when'. unfold schedule. simpl. rewrite Ht.
  unfold mbind, M_bind, events_remove. simpl.
  rewrite sl_remove_absent; [done|].
  by apply (entries_of_nil_not_elem g (mkScheduler l' (_tags (sched w)))).
Qed.

End RoundTrip.

Lemma schedule_un_schedule_round_trip_witness :
  let w := mkWorld (mkScheduler [(30, "a"%string)] {[ Some "a"%string := 30 ]})
                   10 2 [] in
  tag_consistent "b" (sched w) ∧
  _tags (sched w) !! Some "b"%string = None ∧
  current_engine_time w < 20 ∧
  ∃ w', (_ ← schedule 0 100 20 (Some "b"%string);
         un_schedule (Some "b"%string)) w = Return w' () ∧
        sched w' = sched w.
Proof.
  intros w.
  assert (tag_consistent "b" (sched w)) as Hc by reflexivity.
  assert (_tags (sched w) !! Some "b"%string = None) as Hg by reflexivity.
  assert (current_engine_time w < 20) as Hfut by (simpl; lia).
  exact (conj Hc (conj Hg (conj Hfut
           (schedule_un_schedule_round_trip 0 100 w "b" 20 Hc Hg Hfut)))).
Defined.

Lemma schedule_after_advance_raises_witness :
  let w := mkWorld (mkScheduler [(5, "a"%string); (8, "b"%string)]
                                {[ Some "a"%string := 5; Some "b"%string := 8 ]})
                   5 2 [] in
  times_sorted (_scheduled_events (sched w)) ∧
  _tags (sched w) !! Some "a"%string = Some 5 ∧
  5 ≤ current_engine_time w ∧
  ∃ w', advance w = Return w' () ∧
        _tags (sched w') !! Some "a"%string = Some 5 ∧
        (∀ when, schedule 0 100 when (Some "a"%string) w' =
                 Raise w' ValueError) ∧
        un_schedule (Some "a"%string) w' = Raise w' ValueError.
Proof.
  intros w.
  assert (times_sorted (_scheduled_events (sched w))) as Hs.
  { unfold times_sorted; simpl. repeat constructor; simpl; lia. }
  assert (_tags (sched w) !! Some "a"%string = Some 5) as Ht by reflexivity.
  assert (5 ≤ current_engine_time w) as Hdue by (simpl; lia).
  exact (conj Hs (conj Ht (conj Hdue
           (schedule_after_advance_raises 0 100 w "a" 5 Hs Ht Hdue)))).
Defined.

Lemma schedule_past_cancels_witness :
  let w := mkWorld (mkScheduler [(30, "a"%string)] {[ Some "a"%string := 30 ]})
                   10 2 [] in
  tag_consistent "a" (sched w) ∧
  _tags (sched w) !! Some "a"%string = Some 30 ∧
  7 ≤ current_engine_time w ∧
  ∃ w', schedule 0 100 7 (Some "a"%string) w = Return w' () ∧
        sl_remove (30, "a"%string) (_scheduled_events (sched w)) =
          Some (_scheduled_events (sched w')) ∧
        entries_of "a" (sched w') = [] ∧
        _tags (sched w') = _tags (sched w) ∧
        schedule_node_calls w' = schedule_node_calls w ∧
        (∀ when', schedule 0 100 when' (Some "a"%string) w' =
                  Raise w' ValueError).
Proof.
  intros w.
  assert (tag_consistent "a" (sched w)) as Hc by reflexivity.
  assert (_tags (sched w) !! Some "a"%string = Some 30) as Ht by reflexivity.
  assert (7 ≤ current_engine_time w) as Hpast by (simpl; lia).
  exact (conj Hc (conj Ht (conj Hpast
           (schedule_past_cancels 0 100 w "a" 30 7 Hc Ht Hpast)))).
Defined.

(** X6: every method of the scheduler keeps the scheduled entries in the
    order of their times, whether it returns or raises. *)
Theorem methods_keep_time_order (MIN_DT MAX_DT : Z) (w : world)
    (when : Z) (tag : option string) :
  times_sorted (_scheduled_events (sched w)) →
  times_sorted
    (_scheduled_events (sched (state_of (schedule MIN_DT MAX_DT when tag w)))) ∧
  times_sorted (_scheduled_events (sched (state_of (un_schedule tag w)))) ∧
  times_sorted (_scheduled_events (sched (state_of (advance w)))) ∧
  times_sorted (_scheduled_events (sched (state_of (reset w)))).
Proof.
  intros Hs. split; [by apply schedule_sorted|].
  split; [by apply un_schedule_sorted|].
  split; [by apply advance_sorted | apply reset_sorted].
Qed.

Lemma methods_keep_time_order_witness :
  let w := mkWorld (mkScheduler [(5, "a"%string); (8, "b"%string)]
                                {[ Some "a"%string := 5; Some "b"%string := 8 ]})
                   5 2 [] in
  times_sorted (_scheduled_events (sched w)) ∧
  times_sorted
    (_scheduled_events
       (sched (state_of (schedule 0 100 7 (Some "b"%string) w)))) ∧
  times_sorted
    (_scheduled_events (sched (state_of (un_schedule (Some "b"%string) w)))) ∧
  times_sorted (_scheduled_events (sched (state_of (advance w)))) ∧
  times_sorted (_scheduled_events (sched (state_of (reset w)))).
Proof.
  intros w.
  assert (times_sorted (_scheduled_events (sched w))) as Hs.
  { unfold times_sorted; simpl. repeat constructor; simpl; lia. }
  exact (conj Hs (methods_keep_time_order 0 100 w 7 (Some "b"%string) Hs)).
Defined.

End SchedulerSpec.

(** ** The compute node *)

Module NodeSpec.
Import Node.

Section WithUserCode.
Context {Kwargs V : Type}.
Implicit Types (w : world Kwargs V) (b : gmap string TimeSeriesInput).

(** With an invalid input among the names, the check is not passed: it
    gives [False], or fails on a name the bundle lacks before reaching
    the invalid input. *)
Lemma all_valid_invalid b args k i :
  k ∈ args → b !! k = Some i → valid i = false →
  all_valid b args ≠ inr true.
Proof.
  intros Hin Hk Hi. induction args as [|k' args IH]; simpl.
  - by apply elem_of_nil in Hin.
  - destruct (b !! k') as [i'|] eqn:Hk'; [|done].
    destruct (valid i') eqn:Hi'; [|done].
    apply elem_of_cons in Hin as [->|Hin]; [|by apply IH].
    congruence.
Qed.

Lemma all_valid_total b args :
  (∀ k, k ∈ args → is_Some (b !! k)) → ∃ ok, all_valid b args = inr ok.
Proof.
  induction args as [|k args IH]; simpl; intros Hall; [by eexists|].
  destruct (Hall k) as [i ->]; [by left|].
  destruct (valid i); [|by eexists].
  apply IH. intros k' Hk'. apply Hall. by right.
Qed.

(** What the first part of [eval] does with the result of the validity
    check. *)
Lemma eval_gate_all_valid scheduled w b :
  input (node w) = Some b →
  match all_valid b (checked_inputs (signature (node w))) with
  | inl e => eval_gate scheduled w = Raise w e
  | inr false => eval_gate scheduled w = Return w false
  | inr true =>
      eval_gate scheduled w =
        match _scheduler (node w) with
        | None => Return w true
        | Some _ =>
            if scheduled then Return w true
            else
              match any_valid b (checked_inputs (signature (node w))) with
              | inl e => Raise w e
              | inr any => Return w any
              end
        end
  end.
Proof.
  intros Hb. unfold eval_gate. rewrite Hb. unfold mbind, M_bind.
  destruct (all_valid b _) as [e|[|]]; simpl; [done| |done].
  destruct (_scheduler (node w)); [|done].
  destruct scheduled; [done|].
  by destruct (any_valid b _) as [e|any].
Qed.

(** C1: a node with an input bundle, one of whose checked inputs is not
    valid, leaves [eval] without calling the user function and without
    applying a result: nothing at all is changed; and when the bundle has
    every checked name, [eval] returns. *)
Theorem eval_invalid_input_returns w b (k : string) (i : TimeSeriesInput) :
  input (node w) = Some b →
  k ∈ checked_inputs (signature (node w)) →
  b !! k = Some i →
  valid i = false →
  state_of (eval w) = w ∧
  eval_fn_calls (state_of (eval w)) = eval_fn_calls w ∧
  apply_result_calls (state_of (eval w)) = apply_result_calls w ∧
  ((∀ k', k' ∈ checked_inputs (signature (node w)) → is_Some (b !! k')) →
   eval w = Return w ()).
Proof.
  intros Hb Hin Hk Hi.
  pose proof (all_valid_invalid b _ k i Hin Hk Hi) as Hnot.
  assert (state_of (eval w) = w ∧
          (∀ ok, all_valid b (checked_inputs (signature (node w))) = inr ok →
                 eval w = Return w ())) as [Hst Hret].
  { unfold eval.
    set (scheduled := match _scheduler (node w) with
                      | Some s => _ | None => false end).
    pose proof (eval_gate_all_valid scheduled w b Hb) as Hgate.
    destruct (all_valid b _) as [e|[|]]; [| done |].
    - rewrite (bind_Raise _ _ _ _ _ Hgate). split; [done|]. by intros.
    - rewrite (bind_Return _ _ _ _ _ Hgate). simpl. split; [done|]. by intros. }
  split; [done|]. rewrite Hst. split; [done|]. split; [done|].
  intros Hall. destruct (all_valid_total b _ Hall) as [ok Hok]. eauto.
Qed.

(** Once every checked input is valid and there is at least one, the
    second check of [eval] lets the evaluation through whether or not
    any input was modified: it reads [valid] again. *)
Lemma any_valid_of_all_valid b args :
  args ≠ [] → all_valid b args = inr true → any_valid b args = inr true.
Proof.
  destruct args as [|k args]; [done|]. intros _. simpl.
  destruct (b !! k) as [i|]; [|done]. by destruct (valid i).
Qed.

(** So a node with a scheduler that did not schedule it now, whose checked
    inputs are all valid, calls the user function, whatever [modified]
    says of its inputs. *)
Lemma eval_unscheduled_calls_eval_fn w b :
  input (node w) = Some b →
  checked_inputs (signature (node w)) ≠ [] →
  all_valid b (checked_inputs (signature (node w))) = inr true →
  eval_fn_calls (state_of (eval w)) = eval_fn_calls w ++ [_kwargs (node w)].
Proof.
  intros Hb Hne Hall. unfold eval.
  set (scheduled := match _scheduler (node w) with
                    | Some s => _ | None => false end).
  pose proof (eval_gate_all_valid scheduled w b Hb) as Hgate.
  rewrite Hall, (any_valid_of_all_valid _ _ Hne Hall) in Hgate.
  assert (eval_gate scheduled w = Return w true) as Hgo.
  { rewrite Hgate. destruct (_scheduler (node w)); [|done].
    by destruct scheduled. }
  rewrite (bind_Return _ _ _ _ _ Hgo). simpl.
  unfold mbind, M_bind, call_eval_fn.
  destruct (eval_fn (node w) (_kwargs (node w))) as [[v|]|e]; simpl; [| |done].
  - destruct scheduled; [|done]. unfold on_scheduler; simpl.
    destruct (_scheduler (node w)) as [s|]; simpl; [|done].
    by destruct (Scheduler.advance _).
  - destruct scheduled; [|done]. unfold on_scheduler; simpl.
    destruct (_scheduler (node w)) as [s|]; simpl; [|done].
    by destruct (Scheduler.advance _).
Qed.

End WithUserCode.

Lemma eval_invalid_input_returns_witness :
  let w := mkWorld
    (mkNode 0 (mkSignature ["a"; "b"]%string (Some ["b"%string]))
            (λ _ : (), Returns (Some 1))
            (Some {[ "a"%string := mkInput true true;
                     "b"%string := mkInput false false ]})
            None ())
    5 [] [] [] in
  let b : gmap string TimeSeriesInput :=
    {[ "a"%string := mkInput true true; "b"%string := mkInput false false ]} in
  input (node w) = Some b ∧
  "b"%string ∈ checked_inputs (signature (node w)) ∧
  b !! "b"%string = Some (mkInput false false) ∧
  valid (mkInput false false) = false ∧
  state_of (eval w) = w ∧
  eval_fn_calls (state_of (eval w)) = eval_fn_calls w ∧
  apply_result_calls (state_of (eval w)) = apply_result_calls w ∧
  ((∀ k', k' ∈ checked_inputs (signature (node w)) → is_Some (b !! k')) →
   eval w = Return w ()).
Proof.
  intros w b.
  assert (input (node w) = Some b) as H1 by reflexivity.
  assert ("b"%string ∈ checked_inputs (signature (node w))) as H2
    by (simpl; apply list_elem_of_singleton; reflexivity).
  assert (b !! "b"%string = Some (mkInput false false)) as H3
    by (vm_compute; reflexivity).
  assert (valid (mkInput false false) = false) as H4 by reflexivity.
  exact (conj H1 (conj H2 (conj H3 (conj H4
           (eval_invalid_input_returns w b "b" _ H1 H2 H3 H4))))).
Defined.

(** C2, the code at a failing input: [idle_node] was not scheduled by its
    scheduler at the engine time, and its only input is valid and not
    modified; [eval] calls the user function and applies its result. *)
Theorem eval_idle_node_calls_eval_fn :
  Scheduler.is_scheduled_now Scheduler.reset_scheduler
                             (current_engine_time idle_node) = false ∧
  input (node idle_node) = Some {[ "ts"%string := mkInput true false ]} ∧
  modified (mkInput true false) = false ∧
  eval idle_node = Return (mkWorld (node idle_node) 5 [] [()] [1]) ().
Proof. repeat split. Qed.

(** *** An evaluation that goes through *)

Section Runs.
Context {Kwargs V : Type}.
Implicit Types (w : world Kwargs V) (b : gmap string TimeSeriesInput).

Lemma eval_gate_scheduled w :
  inputs_valid w → eval_gate true w = Return w true.
Proof.
  unfold inputs_valid, eval_gate. destruct (input (node w)) as [b|]; [|done].
  intros Hall. unfold mbind, M_bind. rewrite Hall. simpl.
  by destruct (_scheduler (node w)).
Qed.

(** The checks before the call read the node and change nothing. *)
Lemma eval_gate_state (scheduled : bool) w :
  state_of (eval_gate scheduled w) = w.
Proof.
  unfold eval_gate. destruct (input (node w)) as [b|]; [|done].
  unfold mbind, M_bind, lift_check.
  destruct (all_valid b _) as [e|[|]]; simpl; try done.
  destruct (_scheduler (node w)); [|done].
  destruct scheduled; [done|].
  by destruct (any_valid b _).
Qed.

(** [eval] is [eval_with] for a user function that changes nothing. *)
Lemma eval_eval_with w : eval w = eval_with (unchanging (eval_fn (node w))) w.
Proof.
  unfold eval, eval_with. unfold mbind, M_bind.
  pose proof (eval_gate_state
                (match _scheduler (node w) with
                 | None => false
                 | Some s => Scheduler.is_scheduled_now s (current_engine_time w)
                 end) w) as Hstate.
  destruct (eval_gate _ w) as [w1 go|w1 e]; [|done].
  simpl in Hstate. subst w1.
  destruct go; simpl; [|done].
  unfold call_eval_fn, call_user, unchanging.
  by destruct (eval_fn (node w) (_kwargs (node w))).
Qed.

Lemma eval_gate_goes_on w :
  inputs_valid w →
  (match _scheduler (node w) with
   | Some s =>
       Scheduler.is_scheduled_now s (current_engine_time w) = true ∨
       input (node w) = None ∨
       checked_inputs (signature (node w)) ≠ []
   | None => True
   end) →
  eval_gate (match _scheduler (node w) with
             | Some s => Scheduler.is_scheduled_now s (current_engine_time w)
             | None => false
             end) w = Return w true.
Proof.
  intros Hvalid Hwhy. unfold inputs_valid in Hvalid. unfold eval_gate.
  destruct (input (node w)) as [b|] eqn:Hb; [|done].
  unfold mbind, M_bind. rewrite Hvalid. simpl.
  destruct (_scheduler (node w)) as [s|]; [|done].
  destruct (Scheduler.is_scheduled_now s _); [done|].
  destruct Hwhy as [?|[?|Hne]]; [done..|].
  by rewrite (any_valid_of_all_valid _ _ Hne Hvalid).
Qed.

(** X7: a node that its scheduler scheduled for the current engine time,
    with valid inputs, runs whether or not an input was modified: the user
    function is called, and whatever it did to the node (it may have
    scheduled or un-scheduled wake-ups), when it returns its result is
    applied unless it is [None], and the scheduler, as the function left
    it, is advanced: it keeps only its entries later than the engine time
    and is no longer scheduled now. *)
Theorem eval_scheduled_runs (f : user_fn) w w1
    (s s1 : Scheduler.NodeSchedulerImpl) (out : option V) :
  inputs_valid w →
  _scheduler (node w) = Some s →
  Scheduler.is_scheduled_now s (current_engine_time w) = true →
  call_user f w = Return w1 out →
  _scheduler (node w1) = Some s1 →
  Scheduler.times_sorted (Scheduler._scheduled_events s1) →
  ∃ w' s', eval_with f w = Return w' () ∧
           eval_fn_calls w' = eval_fn_calls w1 ∧
           apply_result_calls w' = apply_result_calls w1 ++ option_list out ∧
           _scheduler (node w') = Some s' ∧
           Scheduler._scheduled_events s' =
             filter (λ e : Scheduler.event, current_engine_time w1 < e.1)
                    (Scheduler._scheduled_events s1) ∧
           Scheduler._tags s' = Scheduler._tags s1 ∧
           Scheduler.is_scheduled_now s' (current_engine_time w1) = false.
Proof.
  intros Hvalid Hs Hnow Hcall Hs1 Hsorted. unfold eval_with. rewrite Hs, Hnow.
  rewrite (bind_Return _ _ _ _ _ (eval_gate_scheduled w Hvalid)). simpl.
  rewrite (bind_Return _ _ _ _ _ Hcall).
  assert (∃ w2, (match out with
                 | Some v => output_apply_result v
                 | None => mret ()
                 end) w1 = Return w2 () ∧
                node w2 = node w1 ∧
                current_engine_time w2 = current_engine_time w1 ∧
                eval_fn_calls w2 = eval_fn_calls w1 ∧
                apply_result_calls w2 = apply_result_calls w1 ++ option_list out)
    as (w2 & Happly & Hn2 & Ht2 & Hc2 & Ha2).
  { destruct out as [v|]; eexists; (split; [done|]); simpl;
      rewrite ?app_nil_r; done. }
  rewrite (bind_Return _ _ _ _ _ Happly).
  unfold on_scheduler. rewrite Hn2, Hs1.
  destruct (SchedulerSpec.advance_keeps_later (to_scheduler_world s1 w2))
    as (sw & Hadv & Hev & Htg); [done|].
  rewrite Hadv. simpl in *. rewrite Ht2 in Hev.
  eexists _, _. split; [done|]. simpl. rewrite Hc2, Ha2.
  do 5 (split; [done|]).
  apply SchedulerSpec.later_not_scheduled_now. intros e.
  rewrite Hev, list_elem_of_filter. tauto.
Qed.

(** X8: when the user function raises, [eval] raises the same exception
    and does nothing after the call: the node is left exactly as the
    function left it when it raised, with no result applied by [eval] and
    the scheduler not advanced. *)
Theorem eval_fn_error_propagates (f : user_fn) w w1 (e : exn) :
  inputs_valid w →
  (match _scheduler (node w) with
   | Some s =>
       Scheduler.is_scheduled_now s (current_engine_time w) = true ∨
       input (node w) = None ∨
       checked_inputs (signature (node w)) ≠ []
   | None => True
   end) →
  call_user f w = Raise w1 e →
  eval_with f w = Raise w1 e.
Proof.
  intros Hvalid Hwhy Herr. unfold eval_with.
  rewrite (bind_Return _ _ _ _ _ (eval_gate_goes_on w Hvalid Hwhy)). simpl.
  by rewrite (bind_Raise _ _ _ _ _ Herr).
Qed.

End Runs.

Lemma eval_scheduled_runs_witness :
  let w := woken_node (λ _, Returns None) in
  let s := Scheduler.mkScheduler [(5, "a"%string); (9, "b"%string)]
             {[ Some "a"%string := 5; Some "b"%string := 9 ]} in
  let s1 := Scheduler.mkScheduler [(9, "b"%string); (12, "a"%string)]
              {[ Some "a"%string := 12; Some "b"%string := 9 ]} in
  let w1 := state_of (call_user (timer_fn false) w) in
  inputs_valid w ∧
  _scheduler (node w) = Some s ∧
  Scheduler.is_scheduled_now s (current_engine_time w) = true ∧
  call_user (timer_fn false) w = Return w1 (Some 1) ∧
  _scheduler (node w1) = Some s1 ∧
  Scheduler.times_sorted (Scheduler._scheduled_events s1) ∧
  ∃ w' s', eval_with (timer_fn false) w = Return w' () ∧
           eval_fn_calls w' = eval_fn_calls w1 ∧
           apply_result_calls w' =
             apply_result_calls w1 ++ option_list (Some 1) ∧
           _scheduler (node w') = Some s' ∧
           Scheduler._scheduled_events s' =
             filter (λ e : Scheduler.event, current_engine_time w1 < e.1)
                    (Scheduler._scheduled_events s1) ∧
           Scheduler._tags s' = Scheduler._tags s1 ∧
           Scheduler.is_scheduled_now s' (current_engine_time w1) = false.
Proof.
  intros w s s1 w1.
  assert (inputs_valid w) as H1 by (vm_compute; reflexivity).
  assert (call_user (timer_fn false) w = Return w1 (Some 1)) as H4
    by (vm_compute; reflexivity).
  assert (_scheduler (node w1) = Some s1) as H5 by (vm_compute; reflexivity).
  assert (Scheduler.times_sorted (Scheduler._scheduled_events s1)) as H6.
  { unfold Scheduler.times_sorted; simpl. repeat constructor; simpl; lia. }
  exact (conj H1 (conj eq_refl (conj eq_refl (conj H4 (conj H5 (conj H6
           (eval_scheduled_runs (timer_fn false) w w1 s s1 (Some 1)
              H1 eq_refl eq_refl H4 H5 H6))))))).
Defined.

Lemma eval_fn_error_propagates_witness :
  let w := woken_node (λ _, Returns None) in
  let w1 := state_of (call_user (timer_fn true) w) in
  inputs_valid w ∧
  (match _scheduler (node w) with
   | Some s =>
       Scheduler.is_scheduled_now s (current_engine_time w) = true ∨
       input (node w) = None ∨
       checked_inputs (signature (node w)) ≠ []
   | None => True
   end) ∧
  call_user (timer_fn true) w = Raise w1 RuntimeError ∧
  eval_with (timer_fn true) w = Raise w1 RuntimeError.
Proof.
  intros w w1.
  assert (inputs_valid w) as H1 by (vm_compute; reflexivity).
  assert (match _scheduler (node w) with
          | Some s =>
              Scheduler.is_scheduled_now s (current_engine_time w) = true ∨
              input (node w) = None ∨
              checked_inputs (signature (node w)) ≠ []
          | None => True
          end) as H2 by (left; reflexivity).
  assert (call_user (timer_fn true) w = Raise w1 RuntimeError) as H3
    by (vm_compute; reflexivity).
  exact (conj H1 (conj H2 (conj H3
           (eval_fn_error_propagates (timer_fn true) w w1 RuntimeError
              H1 H2 H3)))).
Defined.

(** The timer that fails leaves its new wake-up behind: the scheduler of
    the node after the failed evaluation holds the entry for 12. *)
Example failed_timer_leaves_entry :
  Scheduler._scheduled_events
    <$> _scheduler
          (node (state_of (eval_with (timer_fn true)
                             (woken_node (λ _, Returns None))))) =
    Some [(9, "b"%string); (12, "a"%string)].
Proof. by vm_compute. Qed.

Section Skips.
Context {Kwargs V : Type}.
Implicit Types (w : world Kwargs V) (b : gmap string TimeSeriesInput).

(** X9: a node that has a scheduler object which did not schedule it now,
    an input bundle, and an empty set of inputs to check (an empty
    [valid_inputs]) returns from [eval] without calling the user
    function: with nothing to check, [any] finds no cause. *)
Theorem eval_skips_with_nothing_checked w b
    (s : Scheduler.NodeSchedulerImpl) :
  input (node w) = Some b →
  checked_inputs (signature (node w)) = [] →
  _scheduler (node w) = Some s →
  Scheduler.is_scheduled_now s (current_engine_time w) = false →
  eval w = Return w ().
Proof.
  intros Hb Hnone Hs Hnot. unfold eval. rewrite Hs, Hnot.
  assert (eval_gate false w = Return w false) as Hgate.
  { unfold eval_gate. rewrite Hb, Hnone, Hs. done. }
  by rewrite (bind_Return _ _ _ _ _ Hgate).
Qed.

End Skips.

Lemma eval_skips_with_nothing_checked_witness :
  let b : gmap string TimeSeriesInput :=
    {[ "ts"%string := mkInput true true ]} in
  let w := mkWorld
    (mkNode 0 (mkSignature ["ts"%string] (Some [])) (λ _ : (), Returns (Some 1))
            (Some b) (Some Scheduler.reset_scheduler) ())
    5 [] [] [] in
  input (node w) = Some b ∧
  checked_inputs (signature (node w)) = [] ∧
  _scheduler (node w) = Some Scheduler.reset_scheduler ∧
  Scheduler.is_scheduled_now Scheduler.reset_scheduler
                             (current_engine_time w) = false ∧
  eval w = Return w ().
Proof.
  intros b w.
  exact (conj eq_refl (conj eq_refl (conj eq_refl (conj eq_refl
           (eval_skips_with_nothing_checked w b Scheduler.reset_scheduler
              eq_refl eq_refl eq_refl eq_refl))))).
Defined.

End NodeSpec.

(** ** The pull-generator source *)

Module GeneratorSpec.
Import Generator.

Section WithValues.
Context {Kwargs V : Type}.
Implicit Types (w : world Kwargs V) (g : list (@tick V)).

Lemma eval_from_not_immediate g w :
  head_immediate (current_engine_time w) g = false →
  eval_from g w =
    match g with
    | [] => eval_tail None None (set_generator [] w)
    | (time, out) :: g' => eval_tail time out (set_generator g' w)
    end.
Proof.
  destruct g as [|[[t|] [v|]] g']; simpl; try done.
  intros Hnot. by rewrite Hnot.
Qed.

(** At an evaluation whose tuple is not applied at once, the cached value
    is the one result applied. *)
Lemma eval_applies_cached w c :
  next_value (node w) = Some c →
  head_immediate (current_engine_time w) (generator (node w)) = false →
  apply_result_calls (eval w) =
    apply_result_calls w ++ [(current_engine_time w, c)].
Proof.
  intros Hc Hnot. unfold eval. rewrite eval_from_not_immediate by done.
  destruct (generator (node w)) as [|[time out] g']; simpl;
    unfold eval_tail, apply_cached; simpl; rewrite Hc; simpl.
  - done.
  - by destruct time, out.
Qed.

(** C8, as amended. An [eval] that obtains a tuple [(t, v)], both
    components present: when [t] is not later than the engine time, [v]
    is applied at once and [eval] runs again on the rest of the
    generator; when [t] is in the future, [v] is cached and the node
    scheduled at [t], and the evaluation at a later instant (the clock is
    at [t'] then) applies the cached [v] provided the tuple it obtains is
    not itself applied at once. On [start] the node is scheduled at the
    current engine time. *)
Theorem generator_eval_spec w (t : Z) (v : V) g :
  generator (node w) = (Some t, Some v) :: g →
  (t ≤ current_engine_time w →
   eval w = eval (set_next_value None
                    (output_apply_result v (set_generator g w))) ∧
   apply_result_calls
     (set_next_value None (output_apply_result v (set_generator g w))) =
     apply_result_calls w ++ [(current_engine_time w, v)]) ∧
  (current_engine_time w < t →
   next_value (node (eval w)) = Some v ∧
   generator (node (eval w)) = g ∧
   schedule_node_calls (eval w) =
     schedule_node_calls w ++ [(node_ndx (node w), t)] ∧
   (∀ t', head_immediate t' g = false →
          apply_result_calls (eval (at_time t' (eval w))) =
            apply_result_calls (eval w) ++ [(t', v)])) ∧
  schedule_node_calls (start w) =
    schedule_node_calls w ++ [(node_ndx (node w), current_engine_time w)].
Proof.
  intros Hg. split; [|split; [|done]].
  - intros Hnow. split; [|done].
    unfold eval at 1. rewrite Hg. simpl. by rewrite bool_decide_true by done.
  - intros Hfut.
    assert (eval w = graph_schedule_node (node_ndx (node w)) t
                       (set_next_value (Some v)
                          (apply_cached (set_generator g w)))) as Hev.
    { unfold eval. rewrite Hg. simpl. rewrite bool_decide_false by lia.
      unfold eval_tail, apply_cached. simpl. by destruct (next_value (node w)). }
    assert (next_value (node (eval w)) = Some v) as Hnv by by rewrite Hev.
    assert (generator (node (eval w)) = g) as Hgen.
    { rewrite Hev. unfold apply_cached. simpl. by destruct (next_value (node w)). }
    split; [done|]. split; [done|]. split.
    + rewrite Hev. unfold apply_cached. simpl.
      by destruct (next_value (node w)).
    + intros t' Ht'.
      rewrite (eval_applies_cached (at_time t' (eval w)) v); [done|done|].
      simpl. by rewrite Hgen.
Qed.

End WithValues.

Lemma generator_eval_spec_witness :
  let w := in_step in
  let g : list (@tick Z) := [(Some 9, Some 2)] in
  generator (node w) = (Some 5, Some 1) :: g ∧
  (5 ≤ current_engine_time w →
   eval w = eval (set_next_value None
                    (output_apply_result 1 (set_generator g w))) ∧
   apply_result_calls
     (set_next_value None (output_apply_result 1 (set_generator g w))) =
     apply_result_calls w ++ [(current_engine_time w, 1)]) ∧
  (current_engine_time w < 5 →
   next_value (node (eval w)) = Some 1 ∧
   generator (node (eval w)) = g ∧
   schedule_node_calls (eval w) =
     schedule_node_calls w ++ [(node_ndx (node w), 5)] ∧
   (∀ t', head_immediate t' g = false →
          apply_result_calls (eval (at_time t' (eval w))) =
            apply_result_calls (eval w) ++ [(t', 1)])) ∧
  schedule_node_calls (start w) =
    schedule_node_calls w ++ [(node_ndx (node w), current_engine_time w)].
Proof.
  intros w g.
  assert (generator (node w) = (Some 5, Some 1) :: g) as Hg by reflexivity.
  exact (conj Hg (generator_eval_spec w 5 1 g Hg)).
Defined.

(** The same node through its two instants: [1] is applied at 5 and [2]
    cached for 9, where it is applied. *)
Example in_step_run :
  apply_result_calls (eval in_step) = [(5, 1)] ∧
  next_value (node (eval in_step)) = Some 2 ∧
  schedule_node_calls (eval in_step) = [(0%nat, 9)] ∧
  apply_result_calls (eval (at_time 9 (eval in_step))) = [(5, 1); (9, 2)].
Proof. repeat split. Qed.

(** C8 as stated fails when the tuple obtained at the instant of a cached
    value is itself applied at once. The generator yields [(5, 1)] and
    [(5, 2)]. Evaluated at time 0 the node caches [1] and is scheduled at
    5; evaluated at time 5 it applies [2] only, and holds no cached value
    any more: [1] is never applied. *)
Lemma cached_value_dropped_counterexample :
  let w0 := eval (start twice_at_5) in
  let w5 := eval (at_time 5 w0) in
  next_value (node w0) = Some 1 ∧
  schedule_node_calls w0 = [(0%nat, 0); (0%nat, 5)] ∧
  apply_result_calls w5 = [(5, 2)] ∧
  next_value (node w5) = None ∧
  generator (node w5) = [].
Proof. repeat split. Qed.

(** *** A generator run by the engine *)

Section Runs.
Context {Kwargs V : Type}.
Implicit Types (w : world Kwargs V) (g : list (@tick V)) (l : list (Z * V)).

Lemma eval_future w (t : Z) (v : V) g :
  generator (node w) = (Some t, Some v) :: g →
  current_engine_time w < t →
  eval w = graph_schedule_node (node_ndx (node w)) t
             (set_next_value (Some v) (apply_cached (set_generator g w))).
Proof.
  intros Hg Hfut. unfold eval. rewrite Hg. simpl.
  rewrite bool_decide_false by lia.
  unfold eval_tail, apply_cached. simpl. by destruct (next_value (node w)).
Qed.

Lemma apply_cached_calls w :
  apply_result_calls (apply_cached w) = apply_result_calls w ++ cached_call w.
Proof.
  unfold apply_cached, cached_call.
  destruct (next_value (node w)); simpl; by rewrite ?app_nil_r.
Qed.

Lemma run_at_cons (t : Z) (times : list Z) w :
  run_at (t :: times) w = run_at times (eval (at_time t w)).
Proof. done. Qed.

Lemma apply_cached_fields w :
  next_value (node (apply_cached w)) = None ∧
  generator (node (apply_cached w)) = generator (node w) ∧
  node_ndx (node (apply_cached w)) = node_ndx (node w) ∧
  schedule_node_calls (apply_cached w) = schedule_node_calls w ∧
  current_engine_time (apply_cached w) = current_engine_time w.
Proof.
  unfold apply_cached.
  destruct (next_value (node w)) eqn:Hnv; simpl; by rewrite ?Hnv.
Qed.

(** X10: a generator whose tuples have strictly increasing times, all
    after the engine time, evaluated now and then at each of those times
    (the times the node asks the graph for), has every value applied at
    its own time, in order, after the value that was cached for now, if
    any; the node ends with nothing cached and the generator used up. *)
Theorem generator_in_order l : ∀ w,
  generator (node w) = ticks l →
  increasing_from (current_engine_time w) l →
  apply_result_calls (run_at l.*1 (eval w)) =
    apply_result_calls w ++ cached_call w ++ l ∧
  schedule_node_calls (run_at l.*1 (eval w)) =
    schedule_node_calls w ++ ((λ t, (node_ndx (node w), t)) <$> l.*1) ∧
  next_value (node (run_at l.*1 (eval w))) = None ∧
  generator (node (run_at l.*1 (eval w))) = [].
Proof.
  induction l as [|[t v] l IH]; intros w Hg Hinc.
  - simpl. unfold eval. rewrite Hg. simpl. unfold eval_tail.
    destruct (apply_cached_fields (set_generator [] w))
      as (Hn & Hgen & _ & Hs & _).
    rewrite apply_cached_calls, Hn, Hgen, Hs. simpl.
    by rewrite !app_nil_r.
  - destruct Hinc as [Hfut Hinc]. simpl in Hfut, Hinc.
    rewrite (eval_future w t v (ticks l) Hg Hfut).
    change (((t, v) :: l).*1) with (t :: l.*1). rewrite !run_at_cons.
    destruct (apply_cached_fields (set_generator (ticks l) w))
      as (_ & Hgen1 & Hndx1 & Hs1 & _).
    set (w1 := at_time t _).
    destruct (IH w1) as (Ha & Hs & Hn & Hgen).
    { subst w1. simpl. by rewrite Hgen1. }
    { done. }
    rewrite Ha, Hs, Hn, Hgen. subst w1. simpl.
    rewrite apply_cached_calls, Hndx1, Hs1.
    unfold cached_call. simpl. rewrite <- !app_assoc. done.
Qed.

Lemma eval_from_set_generator g g0 w :
  eval_from g (set_generator g0 w) = eval_from g w.
Proof. by destruct g as [|[[t|] [v|]] g']. Qed.

Lemma eval_from_due l g w :
  (∀ p, p ∈ l → p.1 ≤ current_engine_time w) →
  eval_from (ticks l ++ g) w =
    eval_from g (foldl (λ w p, apply_now p.2 w) w l).
Proof.
  revert w. induction l as [|[t v] l IH]; intros w Hdue; [done|].
  simpl. rewrite bool_decide_true by (apply (Hdue (t, v)); by left).
  transitivity (eval_from (ticks l ++ g)
                  (set_generator (ticks l ++ g) (apply_now v w)));
    [reflexivity|].
  rewrite eval_from_set_generator.
  apply IH. intros p Hp. simpl. apply Hdue. by right.
Qed.

Lemma foldl_apply_now l w :
  let w' := foldl (λ w p, apply_now p.2 w) w l in
  apply_result_calls w' =
    apply_result_calls w ++ ((λ p, (current_engine_time w, p.2)) <$> l) ∧
  current_engine_time w' = current_engine_time w ∧
  schedule_node_calls w' = schedule_node_calls w ∧
  (l ≠ [] → next_value (node w') = None).
Proof.
  revert w. induction l as [|[t v] l IH]; intros w; simpl.
  - by rewrite app_nil_r.
  - destruct (IH (apply_now v w)) as (Ha & Ht & Hs & Hn).
    rewrite Ha, Ht, Hs. simpl. rewrite <- app_assoc. repeat split.
    intros _. destruct l; [done|]. by apply Hn.
Qed.

(** X11: when the generator yields several tuples that are due (a time
    not in the future) before one that is not, a single [eval] applies
    the values of all of them, in order, at the current time, and nothing
    else: a value that was cached for this instant is not applied. The
    tuple after them is taken from the generator too. *)
Theorem eval_applies_due_burst w l g :
  generator (node w) = ticks l ++ g →
  l ≠ [] →
  (∀ p, p ∈ l → p.1 ≤ current_engine_time w) →
  head_immediate (current_engine_time w) g = false →
  apply_result_calls (eval w) =
    apply_result_calls w ++ ((λ p, (current_engine_time w, p.2)) <$> l) ∧
  generator (node (eval w)) = tail g.
Proof.
  intros Hg Hne Hdue Hnot. unfold eval. rewrite Hg, eval_from_due by done.
  destruct (foldl_apply_now l w) as (Ha & Ht & _ & Hn).
  specialize (Hn Hne).
  set (w' := foldl _ w l) in *.
  rewrite eval_from_not_immediate by by rewrite Ht.
  assert (∀ time out g', apply_result_calls
            (eval_tail time out (set_generator g' w')) =
          apply_result_calls w' ∧
          generator (node (eval_tail time out (set_generator g' w'))) = g')
    as Htail.
  { intros time out g'. unfold eval_tail, apply_cached. simpl. rewrite Hn.
    by destruct time, out. }
  destruct g as [|[time out] g']; cbv beta iota.
  - destruct (Htail None None []) as [H1 H2]. by rewrite H1, H2, Ha.
  - destruct (Htail time out g') as [H1 H2]. by rewrite H1, H2, Ha.
Qed.

End Runs.

Lemma generator_in_order_witness :
  let l : list (Z * Z) := [(5, 1); (9, 2)] in
  let w : world () Z := mkWorld (mkNode 3 (λ _, []) () (ticks l) (Some 7)) 2 [] [] in
  generator (node w) = ticks l ∧
  increasing_from (current_engine_time w) l ∧
  apply_result_calls (run_at l.*1 (eval w)) =
    apply_result_calls w ++ cached_call w ++ l ∧
  schedule_node_calls (run_at l.*1 (eval w)) =
    schedule_node_calls w ++ ((λ t, (node_ndx (node w), t)) <$> l.*1) ∧
  next_value (node (run_at l.*1 (eval w))) = None ∧
  generator (node (run_at l.*1 (eval w))) = [].
Proof.
  intros l w.
  assert (increasing_from (current_engine_time w) l) as Hinc
    by (simpl; lia).
  exact (conj eq_refl (conj Hinc (generator_in_order l w eq_refl Hinc))).
Defined.

Lemma eval_applies_due_burst_witness :
  let l : list (Z * Z) := [(5, 1); (4, 2)] in
  let g : list (@tick Z) := [(Some 9, Some 3)] in
  let w : world () Z := mkWorld (mkNode 3 (λ _, []) () (ticks l ++ g) (Some 7)) 5 [] [] in
  generator (node w) = ticks l ++ g ∧
  l ≠ [] ∧
  (∀ p, p ∈ l → p.1 ≤ current_engine_time w) ∧
  head_immediate (current_engine_time w) g = false ∧
  apply_result_calls (eval w) =
    apply_result_calls w ++ ((λ p, (current_engine_time w, p.2)) <$> l) ∧
  generator (node (eval w)) = tail g.
Proof.
  intros l g w.
  assert (l ≠ []) as Hne by done.
  assert (∀ p, p ∈ l → p.1 ≤ current_engine_time w) as Hdue.
  { intros p Hp. apply elem_of_cons in Hp as [->|Hp]; [simpl; lia|].
    apply elem_of_cons in Hp as [->|Hp]; [simpl; lia|].
    by apply elem_of_nil in Hp. }
  exact (conj eq_refl (conj Hne (conj Hdue (conj eq_refl
           (eval_applies_due_burst w l g eq_refl Hne Hdue eq_refl))))).
Defined.

End GeneratorSpec.

(** ** The push-queue source *)

Module PushQueueSpec.
Import PushQueue.

Section WithValues.
Context {V : Type}.
Implicit Types (w : world V) (v : V).

Lemma enqueue_stopped w v :
  stopped (receiver_object w) = true → enqueue v w = Raise w RuntimeError.
Proof. intros Hs. unfold enqueue. by rewrite Hs. Qed.

Lemma enqueue_running w v :
  stopped (receiver_object w) = false →
  enqueue v w =
    Return (mkWorld (mkReceiver (queue (receiver_object w) ++ [v]) false)
                    (node_receiver w) true (apply_result_calls w)) ().
Proof. intros Hs. unfold enqueue. by rewrite Hs. Qed.

Lemma send_all_stopped (values : list V) w :
  stopped (receiver_object w) = true → send_all values w = w.
Proof.
  intros Hs. induction values as [|v values IH]; simpl; [done|].
  by rewrite enqueue_stopped.
Qed.

(** C7: for a started push-source node whose receiver is not stopped, an
    enqueue appends the value and sets the pending-push flag; [stop]
    returns and sets the receiver's [stopped] flag, after which every
    call of the sender raises and changes nothing: the queue, the flag and
    all the rest are as [stop] left them, however many calls are made. *)
Theorem enqueue_after_stop_raises w :
  node_receiver w = true →
  stopped (receiver_object w) = false →
  (∀ v, ∃ w1, enqueue v w = Return w1 () ∧
              queue (receiver_object w1) = queue (receiver_object w) ++ [v] ∧
              push_has_pending_values w1 = true) ∧
  ∃ w', stop w = Return w' () ∧
        stopped (receiver_object w') = true ∧
        queue (receiver_object w') = queue (receiver_object w) ∧
        push_has_pending_values w' = push_has_pending_values w ∧
        (∀ v, enqueue v w' = Raise w' RuntimeError) ∧
        (∀ values, send_all values w' = w').
Proof.
  intros Hnode Hrun. split.
  - intros v. eexists. rewrite enqueue_running by done. done.
  - unfold stop. rewrite Hnode. simpl. eexists. split; [done|].
    do 3 (split; [done|]). split.
    + intros v. by apply enqueue_stopped.
    + intros values. by apply send_all_stopped.
Qed.

End WithValues.

Lemma enqueue_after_stop_raises_witness :
  let w : world Z := mkWorld (mkReceiver [7] false) true false [] in
  node_receiver w = true ∧
  stopped (receiver_object w) = false ∧
  (∀ v, ∃ w1, enqueue v w = Return w1 () ∧
              queue (receiver_object w1) = queue (receiver_object w) ++ [v] ∧
              push_has_pending_values w1 = true) ∧
  ∃ w', stop w = Return w' () ∧
        stopped (receiver_object w') = true ∧
        queue (receiver_object w') = queue (receiver_object w) ∧
        push_has_pending_values w' = push_has_pending_values w ∧
        (∀ v, enqueue v w' = Raise w' RuntimeError) ∧
        (∀ values, send_all values w' = w').
Proof.
  intros w.
  exact (conj eq_refl (conj eq_refl
           (enqueue_after_stop_raises w eq_refl eq_refl))).
Defined.

(** A value sent before [stop] and one sent after, at a concrete state. *)
Example send_around_stop :
  let started : world Z := state_of (start (mkWorld (mkReceiver [] true) false false [])) in
  let sent := state_of (enqueue 1 started) in
  let halted := state_of (stop sent) in
  queue (receiver_object sent) = [1] ∧
  push_has_pending_values sent = true ∧
  enqueue 2 halted = Raise halted RuntimeError ∧
  queue (receiver_object halted) = [1].
Proof. repeat split. Qed.

(** *** First in, first out *)

Section Fifo.
Context {V : Type} (is_none : V → bool).
Implicit Types (w : world V) (v : V).

Lemma send_all_running (values : list V) w :
  stopped (receiver_object w) = false →
  queue (receiver_object (send_all values w)) =
    queue (receiver_object w) ++ values ∧
  stopped (receiver_object (send_all values w)) = false ∧
  node_receiver (send_all values w) = node_receiver w ∧
  apply_result_calls (send_all values w) = apply_result_calls w ∧
  push_has_pending_values (send_all values w) =
    match values with [] => push_has_pending_values w | _ => true end.
Proof.
  revert w. induction values as [|v values IH]; intros w Hrun; simpl.
  - by rewrite app_nil_r.
  - rewrite enqueue_running by done. simpl.
    destruct (IH (mkWorld (mkReceiver (queue (receiver_object w) ++ [v]) false)
                          (node_receiver w) true (apply_result_calls w)))
      as (Hq & Hs & Hn & Ha & Hp); [done|].
    rewrite Hq, Hs, Hn, Ha, Hp. simpl. rewrite <- app_assoc.
    by destruct values.
Qed.

Lemma evals_queue (n : nat) w :
  node_receiver w = true →
  apply_result_calls (evals is_none n w) =
    apply_result_calls w ++ applied is_none (take n (queue (receiver_object w))) ∧
  queue (receiver_object (evals is_none n w)) =
    drop n (queue (receiver_object w)) ∧
  stopped (receiver_object (evals is_none n w)) =
    stopped (receiver_object w) ∧
  push_has_pending_values (evals is_none n w) =
    match applied is_none (take n (queue (receiver_object w))) with
    | [] => push_has_pending_values w
    | _ => true
    end.
Proof.
  revert w. induction n as [|n IH]; intros w Hnode; simpl.
  - rewrite app_nil_r, drop_0. done.
  - unfold eval at 1 2 3 4. rewrite Hnode. simpl.
    unfold mbind, M_bind, dequeue.
    destruct (queue (receiver_object w)) as [|v q] eqn:Hq; simpl.
    + destruct (IH w Hnode) as (Ha & Hq' & Hs & Hp).
      rewrite Ha, Hq', Hs, Hp, Hq, take_nil, drop_nil. done.
    + unfold applied. rewrite filter_cons.
      destruct (is_none v) eqn:Hv; simpl.
      * set (w1 := set_receiver_object _ w).
        destruct (IH w1) as (Ha & Hq' & Hs & Hp); [done|].
        rewrite Ha, Hq', Hs, Hp. subst w1. simpl.
        done.
      * set (w1 := mkWorld _ _ _ _).
        destruct (IH w1) as (Ha & Hq' & Hs & Hp); [done|].
        rewrite Ha, Hq', Hs, Hp. subst w1. simpl.
        rewrite <- app_assoc.
        repeat split. by destruct (applied is_none (take n q)).
Qed.

(** X12: values leave the queue first in, first out, one per evaluation,
    and those that are not Python's [None] are applied in that order. On
    a started node whose receiver is running, after the sender has been
    called with [values], [n] evaluations take the first [n] values of
    the queue as it was followed by [values], apply those among them that
    are not [None], in order, drop each [None] unapplied, and leave the
    rest queued. *)
Theorem pushed_values_fifo (values : list V) (n : nat) w :
  node_receiver w = true →
  stopped (receiver_object w) = false →
  apply_result_calls (evals is_none n (send_all values w)) =
    apply_result_calls w ++
    filter (λ v, is_none v = false)
           (take n (queue (receiver_object w) ++ values)) ∧
  queue (receiver_object (evals is_none n (send_all values w))) =
    drop n (queue (receiver_object w) ++ values).
Proof.
  intros Hnode Hrun.
  destruct (send_all_running values w Hrun) as (Hq & _ & Hn & Ha & _).
  destruct (evals_queue n (send_all values w)) as (Ha' & Hq' & _).
  { by rewrite Hn. }
  by rewrite Ha', Hq', Hq, Ha.
Qed.

(** An evaluation that finds the queue empty changes nothing and does not
    set the pending-push flag; one that finds [None] at the head takes it
    out and does no more; one that finds another value applies it and sets
    the flag again, so that the engine comes back for the values left. *)
Theorem eval_sets_flag_only_with_value w :
  node_receiver w = true →
  match queue (receiver_object w) with
  | [] => eval is_none w = Return w ()
  | v :: q =>
      ∃ w', eval is_none w = Return w' () ∧
            queue (receiver_object w') = q ∧
            if is_none v
            then push_has_pending_values w' = push_has_pending_values w ∧
                 apply_result_calls w' = apply_result_calls w
            else push_has_pending_values w' = true ∧
                 apply_result_calls w' = apply_result_calls w ++ [v]
  end.
Proof.
  intros Hnode. unfold eval. rewrite Hnode. simpl.
  unfold mbind, M_bind, dequeue.
  destruct (queue (receiver_object w)) as [|v q]; simpl; [done|].
  destruct (is_none v); simpl; eexists; (split; [done|]); done.
Qed.

End Fifo.

Lemma pushed_values_fifo_witness :
  let w : world (option Z) :=
    mkWorld (mkReceiver [Some 7] false) true false [] in
  node_receiver w = true ∧
  stopped (receiver_object w) = false ∧
  apply_result_calls
    (evals option_is_none 3 (send_all [None; Some 8; Some 9] w)) =
    apply_result_calls w ++
    filter (λ v, option_is_none v = false)
           (take 3 (queue (receiver_object w) ++ [None; Some 8; Some 9])) ∧
  queue (receiver_object
           (evals option_is_none 3 (send_all [None; Some 8; Some 9] w))) =
    drop 3 (queue (receiver_object w) ++ [None; Some 8; Some 9]).
Proof.
  intros w.
  exact (conj eq_refl (conj eq_refl
           (pushed_values_fifo option_is_none [None; Some 8; Some 9] 3 w
              eq_refl eq_refl))).
Defined.

(** A pushed [None] between two values: three evaluations apply the two
    values and leave the last one queued. *)
Example pushed_none_dropped :
  let w : world (option Z) :=
    mkWorld (mkReceiver [Some 7] false) true false [] in
  let w' := evals option_is_none 3 (send_all [None; Some 8; Some 9] w) in
  apply_result_calls w' = [Some 7; Some 8] ∧
  queue (receiver_object w') = [Some 9].
Proof. by vm_compute. Qed.

Lemma eval_sets_flag_only_with_value_witness :
  let w : world (option Z) :=
    mkWorld (mkReceiver [Some 7; Some 8] false) true false [] in
  node_receiver w = true ∧
  match queue (receiver_object w) with
  | [] => eval option_is_none w = Return w ()
  | v :: q =>
      ∃ w', eval option_is_none w = Return w' () ∧
            queue (receiver_object w') = q ∧
            if option_is_none v
            then push_has_pending_values w' = push_has_pending_values w ∧
                 apply_result_calls w' = apply_result_calls w
            else push_has_pending_values w' = true ∧
                 apply_result_calls w' = apply_result_calls w ++ [v]
  end.
Proof.
  intros w.
  exact (conj eq_refl
           (eval_sets_flag_only_with_value option_is_none w eq_refl)).
Defined.

End PushQueueSpec.

(** ** The dictionary output *)

Module TSDSpec.
Import TSD.

Section WithKeys.
Context {K : Type} `{Countable K} {V : Type}.
Implicit Types (w : world K V) (k : K) (items : list (K * item V)).

(** *** Deleting a key that is not there *)

Lemma delitem_missing w k :
  _ts_values (tsd w) !! k = None → __delitem__ k w = Raise w KeyError.
Proof. intros Hk. unfold __delitem__. by rewrite Hk. Qed.

Lemma apply_items_app items1 items2 w :
  apply_items (items1 ++ items2) w =
    match apply_items items1 w with
    | Return w1 _ => apply_items items2 w1
    | Raise w1 e => Raise w1 e
    end.
Proof.
  revert w. induction items1 as [|[k v_] items1 IH]; intros w; simpl; [done|].
  unfold mbind, M_bind.
  destruct (apply_item k v_ w) as [w1 []|w1 e]; [apply IH | done].
Qed.

(** One pair of the mapping leaves the children of the other keys as they
    are. *)
Lemma delitem_other w k k' :
  k' ≠ k →
  _ts_values (tsd (state_of (__delitem__ k' w))) !! k = _ts_values (tsd w) !! k.
Proof.
  intros Hne. unfold __delitem__.
  destruct (_ts_values (tsd w) !! k'); simpl; [|done].
  by rewrite lookup_delete_ne.
Qed.

Lemma get_or_create_other w k k' :
  k' ≠ k →
  _ts_values (tsd (state_of (get_or_create k' w))) !! k =
    _ts_values (tsd w) !! k.
Proof.
  intros Hne. unfold get_or_create.
  destruct (_ts_values (tsd w) !! k'); simpl; [done|].
  by rewrite lookup_insert_ne.
Qed.

Lemma apply_item_other w k k' v_ :
  k' ≠ k →
  _ts_values (tsd (state_of (apply_item k' v_ w))) !! k =
    _ts_values (tsd w) !! k.
Proof.
  intros Hne. destruct v_ as [| |v]; simpl.
  - by apply delitem_other.
  - unfold mbind, M_bind, get.
    destruct (_ts_values (tsd w) !! k'); [by apply delitem_other | done].
  - pose proof (get_or_create_other w k k' Hne) as Hg.
    unfold mbind, M_bind.
    destruct (get_or_create k' w) as [w1 []|w1 e]; simpl in *; [|done].
    by rewrite lookup_insert_ne.
Qed.

Lemma apply_items_other items w k :
  k ∉ items.*1 →
  _ts_values (tsd (state_of (apply_items items w))) !! k =
    _ts_values (tsd w) !! k.
Proof.
  revert w. induction items as [|[k' v_] items IH]; intros w Hk; simpl; [done|].
  apply not_elem_of_cons in Hk as [Hne Hk]. simpl in Hne.
  pose proof (apply_item_other w k k' v_ ltac:(done)) as Hstep.
  unfold mbind, M_bind.
  destruct (apply_item k' v_ w) as [w1 []|w1 e]; simpl in *; [|done].
  by rewrite IH.
Qed.

(** C6, as amended. For a key [k] the output does not have: deleting it
    directly raises [KeyError] and changes nothing; assigning a mapping
    that sends [k] to [REMOVE] raises [KeyError] when the pair of [k] is
    reached, the output being as the pairs before it left it (unchanged
    when the pair of [k] comes first), no later pair being applied and no
    callback registered; and a pair sending [k] to [REMOVE_IF_EXISTS] is
    skipped, the assignment going on with the rest and [k] still absent
    when it is passed. *)
Theorem delete_missing_key w k :
  _ts_values (tsd w) !! k = None →
  __delitem__ k w = Raise w KeyError ∧
  (∀ post, set_value (Some ((k, REMOVE) :: post)) w = Raise w KeyError) ∧
  (∀ pre post w1,
     k ∉ pre.*1 → apply_items pre w = Return w1 () →
     set_value (Some (pre ++ (k, REMOVE) :: post)) w = Raise w1 KeyError ∧
     _ts_values (tsd w1) !! k = None) ∧
  (∀ post, set_value (Some ((k, REMOVE_IF_EXISTS) :: post)) w =
           set_value (Some post) w) ∧
  (∀ pre post w1,
     k ∉ pre.*1 → apply_items pre w = Return w1 () →
     apply_items (pre ++ (k, REMOVE_IF_EXISTS) :: post) w =
       apply_items post w1 ∧
     _ts_values (tsd w1) !! k = None).
Proof.
  intros Hk.
  assert (∀ pre w1, k ∉ pre.*1 → apply_items pre w = Return w1 () →
                    _ts_values (tsd w1) !! k = None) as Hpre.
  { intros pre w1 Hnot Hrun.
    pose proof (apply_items_other pre w k Hnot) as Hsame.
    rewrite Hrun in Hsame. simpl in Hsame. congruence. }
  split; [by apply delitem_missing|]. split; [|split; [|split]].
  - intros post. unfold set_value. simpl. unfold mbind, M_bind.
    by rewrite delitem_missing.
  - intros pre post w1 Hnot Hrun. split; [|by eapply Hpre].
    unfold set_value. unfold mbind at 1, M_bind at 1.
    rewrite apply_items_app, Hrun. simpl. unfold mbind, M_bind.
    rewrite delitem_missing; [done|]. by eapply Hpre.
  - intros post. unfold set_value. simpl. unfold mbind, M_bind, get. simpl.
    by rewrite Hk.
  - intros pre post w1 Hnot Hrun. split; [|by eapply Hpre].
    rewrite apply_items_app, Hrun. simpl. unfold mbind, M_bind, get. simpl.
    by rewrite (Hpre pre w1).
Qed.

(** *** The bookkeeping of one evaluation *)

Lemma run_callbacks_cleared (cbs : list callback) w :
  cbs ≠ [] ∨ bookkeeping_empty (tsd w) →
  bookkeeping_empty (tsd (foldl (λ w cb, run_callback cb w) w cbs)).
Proof.
  revert w. induction cbs as [|cb cbs IH]; intros w Hw; simpl.
  - by destruct Hw.
  - apply IH. right. by destruct cb.
Qed.

(** After a whole-value assignment that returns, the callbacks run at the
    end of the drain leave [added_keys] and [removed_items] empty. *)
Lemma set_value_then_cleared items w w' :
  set_value (Some items) w = Return w' () →
  bookkeeping_empty (tsd (after_evaluation w')).
Proof.
  unfold set_value. unfold mbind at 1, M_bind at 1.
  destruct (apply_items items w) as [w1 []|w1 e]; [|done].
  unfold mbind, M_bind, get, modify. simpl.
  destruct (nonempty_map _ || nonempty_set _) eqn:Hne; intros [= <-];
    unfold after_evaluation; simpl; apply run_callbacks_cleared.
  - left. by destruct (after_evaluation_notifications w1).
  - right. apply orb_false_iff in Hne as [Hr Ha].
    unfold nonempty_map, nonempty_set in *.
    apply bool_decide_eq_false in Hr, Ha.
    split; [by destruct (decide (_removed_items (tsd w1) = ∅))
           | by destruct (decide (_added_keys (tsd w1) = ∅))].
Qed.

End WithKeys.

Lemma delete_missing_key_witness :
  let w := one_key in
  _ts_values (tsd w) !! 2 = None ∧
  __delitem__ 2 w = Raise w KeyError ∧
  (∀ post, set_value (Some ((2, REMOVE) :: post)) w = Raise w KeyError) ∧
  (∀ pre post w1,
     2 ∉ pre.*1 → apply_items pre w = Return w1 () →
     set_value (Some (pre ++ (2, REMOVE) :: post)) w = Raise w1 KeyError ∧
     _ts_values (tsd w1) !! 2 = None) ∧
  (∀ post, set_value (Some ((2, REMOVE_IF_EXISTS) :: post)) w =
           set_value (Some post) w) ∧
  (∀ pre post w1,
     2 ∉ pre.*1 → apply_items pre w = Return w1 () →
     apply_items (pre ++ (2, REMOVE_IF_EXISTS) :: post) w =
       apply_items post w1 ∧
     _ts_values (tsd w1) !! 2 = None).
Proof.
  intros w.
  assert (_ts_values (tsd w) !! 2 = None) as Hk by (vm_compute; reflexivity).
  exact (conj Hk (delete_missing_key w 2 Hk)).
Defined.

(** C6 as stated fails for a mapping with a pair before that of the
    missing key: on the output with the one key [1], assigning
    [{1: REMOVE, 2: REMOVE}] raises [KeyError] at [2], and the entry of
    [1] is gone. *)
Lemma remove_missing_after_present_counterexample :
  ∃ w', set_value (Some [(1, REMOVE); (2, REMOVE)]) one_key =
          Raise w' KeyError ∧
        _ts_values (tsd one_key) !! 1 = Some (Some 10) ∧
        _ts_values (tsd w') !! 1 = None ∧
        _ts_values (tsd w') ≠ _ts_values (tsd one_key).
Proof.
  eexists. split; [reflexivity|]. split; [by vm_compute|].
  split; [by vm_compute|].
  intros Heq. apply (f_equal (λ m, m !! 1)) in Heq. by vm_compute in Heq.
Qed.

(** C4, the code at a failing input: on the output with the one key [1],
    [del tsd[1]] returns, registers no callback, and after the callbacks
    of the end of the drain have run [removed_items] still holds the
    child of [1]. *)
Theorem delitem_not_cleared :
  let w := state_of (__delitem__ 1 one_key) in
  __delitem__ 1 one_key = Return w () ∧
  after_evaluation_notifications w = [] ∧
  _removed_items (tsd (after_evaluation w)) !! 1 = Some (Some 10) ∧
  _removed_items (tsd (after_evaluation w)) ≠ ∅.
Proof.
  split; [reflexivity|]. split; [reflexivity|]. split; [by vm_compute|].
  intros Heq. apply (f_equal (λ m, m !! 1)) in Heq. by vm_compute in Heq.
Qed.

(** The same deletion made through the [value] setter is cleared. *)
Example set_value_remove_cleared :
  let w := state_of (set_value (Some [(1, REMOVE)]) one_key) in
  after_evaluation_notifications w = [ClearKeyChanges] ∧
  _removed_items (tsd w) !! 1 = Some (Some 10) ∧
  _removed_items (tsd (after_evaluation w)) = ∅ ∧
  _added_keys (tsd (after_evaluation w)) = ∅.
Proof. repeat split; by vm_compute. Qed.

(** *** The key set and the children *)

Section Keys.
Context {K : Type} `{Countable K} {V : Type}.
Implicit Types (w : world K V) (k : K) (items : list (K * item V)).

Lemma delitem_sync w k :
  keys_in_sync (tsd w) → keys_in_sync (tsd (state_of (__delitem__ k w))).
Proof.
  unfold keys_in_sync, __delitem__. intros Hs.
  destruct (_ts_values (tsd w) !! k); simpl; [|done].
  by rewrite dom_delete_L, Hs.
Qed.

Lemma get_or_create_sync w k :
  keys_in_sync (tsd w) →
  keys_in_sync (tsd (state_of (get_or_create k w))) ∧
  is_Some (_ts_values (tsd (state_of (get_or_create k w))) !! k).
Proof.
  unfold keys_in_sync, get_or_create. intros Hs.
  destruct (_ts_values (tsd w) !! k) eqn:Hk; simpl.
  - by rewrite Hk.
  - rewrite dom_insert_L, Hs, lookup_insert_eq. done.
Qed.

Lemma apply_item_sync w k (v_ : item V) :
  keys_in_sync (tsd w) → keys_in_sync (tsd (state_of (apply_item k v_ w))).
Proof.
  intros Hs. destruct v_ as [| |v]; simpl.
  - by apply delitem_sync.
  - unfold mbind, M_bind, get.
    destruct (_ts_values (tsd w) !! k); [by apply delitem_sync | done].
  - destruct (get_or_create_sync w k Hs) as [Hs1 Hk1].
    unfold mbind, M_bind.
    destruct (get_or_create k w) as [w1 []|w1 e]; simpl in *; [|done].
    unfold keys_in_sync in *. simpl. rewrite dom_insert_L, <- Hs1.
    apply elem_of_dom in Hk1. set_solver.
Qed.

Lemma apply_items_sync items w :
  keys_in_sync (tsd w) → keys_in_sync (tsd (state_of (apply_items items w))).
Proof.
  revert w. induction items as [|[k v_] items IH]; intros w Hs; simpl; [done|].
  pose proof (apply_item_sync w k v_ Hs) as Hstep.
  unfold mbind, M_bind.
  destruct (apply_item k v_ w) as [w1 []|w1 e]; simpl in *; [by apply IH | done].
Qed.

(** X13: the key set stays in step with the children. If the key set
    holds exactly the keys that have a child, it still does after a
    direct deletion, after [_create], and after the [value] setter with
    any argument, whether the call returns or raises part of the way. *)
Theorem key_set_in_sync w k (v : option (list (K * item V))) :
  keys_in_sync (tsd w) →
  keys_in_sync (tsd (state_of (__delitem__ k w))) ∧
  keys_in_sync (tsd (state_of (_create k w))) ∧
  keys_in_sync (tsd (state_of (set_value v w))).
Proof.
  intros Hs. split; [by apply delitem_sync|]. split.
  - unfold keys_in_sync in *. simpl. by rewrite dom_insert_L, Hs.
  - destruct v as [items|]; simpl.
    + pose proof (apply_items_sync items w Hs) as Hitems.
      unfold mbind, M_bind.
      destruct (apply_items items w) as [w1 []|w1 e]; simpl in *; [|done].
      unfold get. simpl. by destruct (_ || _).
    + unfold keys_in_sync in *. simpl. by rewrite dom_fmap_L.
Qed.

(** X14: creating the child of a key the output does not have and
    deleting it again gives back the children and the key set as they
    were; the key observers have been told of both, and the child that
    lived in between is kept in [removed_items]. *)
Theorem create_delitem_round_trip w k :
  keys_in_sync (tsd w) →
  _ts_values (tsd w) !! k = None →
  ∃ w', (_ ← _create k; __delitem__ k) w = Return w' () ∧
        _ts_values (tsd w') = _ts_values (tsd w) ∧
        key_set (tsd w') = key_set (tsd w) ∧
        _removed_items (tsd w') = <[k := None]> (_removed_items (tsd w)) ∧
        calls w' = calls w ++ [OnKeyAdded k; OnKeyRemoved k].
Proof.
  intros Hs Hk. unfold mbind, M_bind, _create, __delitem__. simpl.
  rewrite lookup_insert_eq. eexists. split; [done|]. simpl.
  rewrite delete_insert_id by done. split; [done|]. split.
  - assert (k ∉ key_set (tsd w)) as Hnot.
    { rewrite <- Hs. by apply not_elem_of_dom. }
    set_solver.
  - split; [done|]. by rewrite <- app_assoc.
Qed.


(** X16: assigning [None] invalidates the children and removes none of
    them: the [value] getter shows nothing any more, while the keys, the
    key set and the bookkeeping of removed and added keys are as they
    were. *)
Theorem set_value_none_keeps_keys w :
  ∃ w', set_value None w = Return w' () ∧
        value (tsd w') = ∅ ∧
        dom (_ts_values (tsd w')) = dom (_ts_values (tsd w)) ∧
        key_set (tsd w') = key_set (tsd w) ∧
        _removed_items (tsd w') = _removed_items (tsd w) ∧
        _added_keys (tsd w') = _added_keys (tsd w) ∧
        after_evaluation_notifications w' = after_evaluation_notifications w.
Proof.
  eexists. split; [done|]. simpl. split; [|by rewrite dom_fmap_L].
  unfold value. simpl. apply map_eq. intros k.
  rewrite lookup_omap, lookup_fmap, lookup_empty.
  by destruct (_ts_values (tsd w) !! k).
Qed.

End Keys.

Lemma key_set_in_sync_witness :
  keys_in_sync (tsd one_key) ∧
  keys_in_sync (tsd (state_of (__delitem__ 1 one_key))) ∧
  keys_in_sync (tsd (state_of (_create 1 one_key))) ∧
  keys_in_sync
    (tsd (state_of (set_value (Some [(2, Value 20); (3, REMOVE)]) one_key))).
Proof.
  assert (keys_in_sync (tsd one_key)) as Hs.
  { unfold keys_in_sync. simpl. by rewrite dom_singleton_L. }
  exact (conj Hs (key_set_in_sync one_key 1
                    (Some [(2, Value 20); (3, REMOVE)]) Hs)).
Defined.

Lemma create_delitem_round_trip_witness :
  keys_in_sync (tsd one_key) ∧
  _ts_values (tsd one_key) !! 2 = None ∧
  ∃ w', (_ ← _create 2; __delitem__ 2) one_key = Return w' () ∧
        _ts_values (tsd w') = _ts_values (tsd one_key) ∧
        key_set (tsd w') = key_set (tsd one_key) ∧
        _removed_items (tsd w') = <[2 := None]> (_removed_items (tsd one_key)) ∧
        calls w' = calls one_key ++ [OnKeyAdded 2; OnKeyRemoved 2].
Proof.
  assert (keys_in_sync (tsd one_key)) as Hs.
  { unfold keys_in_sync. simpl. by rewrite dom_singleton_L. }
  assert (_ts_values (tsd one_key) !! 2 = None) as Hk by (vm_compute; reflexivity).
  exact (conj Hs (conj Hk (create_delitem_round_trip one_key 2 Hs Hk))).
Defined.


Lemma set_value_then_cleared_witness :
  let items : list (Z * item Z) := [(1, REMOVE); (2, Value 20)] in
  let w' := state_of (set_value (Some items) one_key) in
  set_value (Some items) one_key = Return w' () ∧
  bookkeeping_empty (tsd (after_evaluation w')).
Proof.
  intros items w'.
  assert (set_value (Some items) one_key = Return w' ()) as Hrun
    by reflexivity.
  exact (conj Hrun (set_value_then_cleared items one_key w' Hrun)).
Defined.

End TSDSpec.

(** ** References *)

Module RefSpec.
Import Ref.

Section AtEngineTime.
Variable now : Z.
Variable bind_output_of :
  option output_id → TimeSeriesInput → outcome TimeSeriesInput ().
Variable fresh : TimeSeriesInput.
Implicit Types (r : PythonTimeSeriesReference) (i : TimeSeriesInput)
               (o : PythonTimeSeriesReferenceOutput).


(** A reference made from an output records an output class, and is bound
    to any input without a check; so is a reference made from items,
    which records no type, at its top level. *)
Lemma reference_of_output (s : shape) (out : output_id) :
  make_reference (Some (AnOutput s out)) None =
    inr (Peer (Some (OutputType s)) out).
Proof. done. Qed.

Lemma rejects_output_type (s : shape) (out : output_id) i :
  rejects (Peer (Some (OutputType s)) out) i = false.
Proof. done. Qed.


(** *** Assigning a reference to a reference output *)

(** Whatever the outcome, the reference is stored and the output is
    modified at the engine time. *)
Lemma set_value_stores r o :
  _value (state_of (set_value now bind_output_of fresh (PyReference r) o)) =
    Some r ∧
  modified_at (state_of (set_value now bind_output_of fresh (PyReference r) o)) =
    Some now.
Proof.
  unfold set_value. simpl.
  by destruct (bind_observers bind_output_of fresh r (_reference_observers o)).
Qed.


(** The assignment ends at the first observer on which [bind_input]
    raises: the error is that of [bind_input], and the observers after
    that one are as they were. *)
Lemma bind_observers_stops r (id : Z) i i' (e : exn)
    (obs : list (Z * TimeSeriesInput)) :
  bind_input bind_output_of fresh r i = Raise i' e →
  bind_observers bind_output_of fresh r ((id, i) :: obs) =
    Raise ((id, i') :: obs) e.
Proof. intros Hraise. simpl. by rewrite Hraise. Qed.


End AtEngineTime.





(** Re-binding [observed] from output 3 to output 4 at time 5. *)
Example observed_rebound :
  set_value 5 (bind_output 5) unbound_reference_input
    (PyReference (Peer (Some (OutputType TS)) 4)) observed =
    Return
      (mkOutput (Some (Peer (Some (OutputType TS)) 4)) (Some 5)
                [(100, mkInput (InputType TS) (Some 4) 5 false []);
                 (200, mkInput (InputType TSS) (Some 4) 5 false [])])
      ().
Proof. reflexivity. Qed.

(** The rejection of the first observer does not depend on what
    [bind_output] does: whatever that method is, the assignment to
    [observed] of a reference that recorded the class of a set input
    raises [TypeError] and leaves the observers alone. *)
Example observed_rejected
    (bind_output_of :
       option output_id → TimeSeriesInput → outcome TimeSeriesInput ())
    (fresh : TimeSeriesInput) :
  set_value 5 bind_output_of fresh
    (PyReference (Peer (Some (InputType TSS)) 4)) observed =
    Raise
      (mkOutput (Some (Peer (Some (InputType TSS)) 4)) (Some 5)
                (_reference_observers observed))
      TypeError.
Proof. reflexivity. Qed.

(** *** Where a reference comes from, and what it binds *)

Section Binding.
Variable bind_output_of :
  option output_id → TimeSeriesInput → outcome TimeSeriesInput ().
Variable fresh : TimeSeriesInput.
Implicit Types (r : PythonTimeSeriesReference) (i : TimeSeriesInput)
               (o : PythonTimeSeriesReferenceOutput).

(** X19: a reference constructed from an output is bound to any input
    whatever: [bind_input] makes no type check and hands the output of
    the reference to [bind_output] of the input. *)
Theorem reference_from_output_binds (s : shape) (out : output_id) i :
  ∃ r, make_reference (Some (AnOutput s out)) None = inr r ∧
       rejects r i = false ∧
       bind_input bind_output_of fresh r i = bind_output_of (Some out) i.
Proof. eexists. split; [done|]. done. Qed.


Lemma bind_input_non_peer (t : option py_type)
    (rs : list PythonTimeSeriesReference) i :
  bind_input bind_output_of fresh (NonPeer t rs) i =
    if rejects (NonPeer t rs) i then Raise i TypeError
    else match iteration_of i with
         | NotIterable => Raise i TypeError
         | how =>
             match bind_items bind_output_of fresh how rs (children i) with
             | Return cs _ => Return (set_children cs i) ()
             | Raise cs e => Raise (set_children cs i) e
             end
         end.
Proof. simpl. destruct (rejects _ i); [done|]. by destruct (iteration_of i). Qed.

Lemma bind_items_cons (how : iteration) (r : PythonTimeSeriesReference)
    (rs : list PythonTimeSeriesReference) (cs : list TimeSeriesInput) :
  bind_items bind_output_of fresh how (r :: rs) cs =
    match next_child how fresh cs with
    | None => Return cs ()
    | Some (c, cs') =>
        match bind_input bind_output_of fresh r c with
        | Return c' _ =>
            match bind_items bind_output_of fresh how rs cs' with
            | Return cs'' _ => Return (c' :: cs'') ()
            | Raise cs'' e => Raise (c' :: cs'') e
            end
        | Raise c' e => Raise (c' :: cs') e
        end
    end.
Proof. done. Qed.

Lemma bind_items_nil (how : iteration) (cs : list TimeSeriesInput) :
  bind_items bind_output_of fresh how [] cs =
    match next_child how fresh cs with
    | None => Return cs ()
    | Some (c, cs') => Return (c :: cs') ()
    end.
Proof. done. Qed.

(** Over a list that does not grow, the loop keeps the number of children
    and those beyond the items. *)
Lemma bind_items_frame (rs : list PythonTimeSeriesReference) :
  ∀ cs : list TimeSeriesInput,
    length (state_of (bind_items bind_output_of fresh Fixed rs cs)) =
      length cs ∧
    drop (length rs) (state_of (bind_items bind_output_of fresh Fixed rs cs)) =
      drop (length rs) cs.
Proof.
  induction rs as [|r rs IH]; intros cs.
  - rewrite bind_items_nil. by destruct cs.
  - rewrite bind_items_cons. destruct cs as [|c cs]; [done|]. simpl next_child.
    cbv beta iota.
    destruct (bind_input bind_output_of fresh r c) as [c' []|c' e];
      [|done].
    destruct (IH cs) as [Hlen Hdrop].
    destruct (bind_items bind_output_of fresh Fixed rs cs) as [cs' []|cs' e];
      simpl in *; by rewrite Hlen.
Qed.

(** Over the items of a reference input the loop appends: the list never
    shrinks, the children it had beyond the items stay, and when every
    item was bound it has one child more than there are items, unless it
    had more already. *)
Lemma bind_items_grows (rs : list PythonTimeSeriesReference) :
  ∀ cs : list TimeSeriesInput,
    (length cs ≤ length (state_of (bind_items bind_output_of fresh Growing rs cs)))%nat ∧
    (length (state_of (bind_items bind_output_of fresh Growing rs cs))
       ≤ Nat.max (length cs) (S (length rs)))%nat ∧
    (returned (bind_items bind_output_of fresh Growing rs cs) = true →
     length (state_of (bind_items bind_output_of fresh Growing rs cs)) =
       Nat.max (length cs) (S (length rs))).
Proof.
  induction rs as [|r rs IH]; intros cs.
  - rewrite bind_items_nil. destruct cs; simpl; lia.
  - rewrite bind_items_cons.
    assert (∃ c cs', next_child Growing fresh cs = Some (c, cs') ∧
                     Nat.max (length cs) 1 = S (length cs'))
      as (c & cs' & -> & Hlen).
    { destruct cs as [|c cs']; eexists _, _; (split; [done|]); simpl; lia. }
    cbv beta iota.
    destruct (bind_input bind_output_of fresh r c) as [c' []|c' e];
      [|simpl; lia].
    destruct (IH cs') as (Hle & Hmax & Hret).
    destruct (bind_items bind_output_of fresh Growing rs cs') as [cs'' []|cs'' e];
      simpl in *; [specialize (Hret eq_refl)|]; lia.
Qed.

(** X21: binding a reference made of items touches the children of the
    input only: whether [bind_input] returns or raises, and whatever
    [bind_output] of the children does, the input keeps its class and its
    own binding. A list input, iterated over its fixed list of children,
    keeps the number of its children, and the children beyond the items
    of the reference (zip stops with the shorter) are as they were. A
    reference input, iterated through its [__getitem__], never loses an
    item input and gets new ones: when [bind_input] returns it has one
    item input more than the reference has items, unless it had more
    already. *)
Theorem bind_input_items_frame (t : option py_type)
    (rs : list PythonTimeSeriesReference) i :
  let i' := state_of (bind_input bind_output_of fresh (NonPeer t rs) i) in
  cls i' = cls i ∧
  _output i' = _output i ∧
  (cls i = InputType TSL →
   length (children i') = length (children i) ∧
   drop (length rs) (children i') = drop (length rs) (children i)) ∧
  (cls i = InputType REF →
   (length (children i) ≤ length (children i'))%nat ∧
   (returned (bind_input bind_output_of fresh (NonPeer t rs) i) = true →
    length (children i') = Nat.max (length (children i)) (S (length rs)))).
Proof.
  intros i'. subst i'. rewrite bind_input_non_peer.
  destruct (rejects _ i).
  { simpl. do 2 (split; [done|]). split; [done|]. intros _. split; [lia|done]. }
  split; [|split; [|split]].
  - destruct (iteration_of i); [done|..];
      by destruct (bind_items _ _ _ rs (children i)) as [cs []|cs e].
  - destruct (iteration_of i); [done|..];
      by destruct (bind_items _ _ _ rs (children i)) as [cs []|cs e].
  - intros Hcls. unfold iteration_of. rewrite Hcls.
    destruct (bind_items_frame rs (children i)) as [Hlen Hdrop].
    destruct (bind_items bind_output_of fresh Fixed rs (children i))
      as [cs []|cs e]; simpl in *; done.
  - intros Hcls. unfold iteration_of. rewrite Hcls.
    destruct (bind_items_grows rs (children i)) as (Hle & _ & Hret).
    destruct (bind_items bind_output_of fresh Growing rs (children i))
      as [cs []|cs e]; simpl in *; split; done.
Qed.

End Binding.

Lemma bind_input_items_frame_witness :
  let r := NonPeer None [Peer (Some (OutputType TS)) 3] in
  let i' := state_of (bind_input (bind_output 5) unbound_reference_input
                        r list_of_two) in
  cls list_of_two = InputType TSL ∧
  length (children i') = length (children list_of_two) ∧
  drop 1 (children i') = drop 1 (children list_of_two).
Proof.
  intros r i'.
  destruct (bind_input_items_frame (bind_output 5) unbound_reference_input
              None [Peer (Some (OutputType TS)) 3] list_of_two)
    as (_ & _ & Hlist & _).
  exact (conj eq_refl (Hlist eq_refl)).
Defined.

(** A list input of two children, bound at time 5 to a reference of one
    item: the first child is bound, the second is as it was. *)
Example list_of_two_bound :
  bind_input (bind_output 5) unbound_reference_input
    (NonPeer None [Peer (Some (OutputType TS)) 3]) list_of_two =
    Return
      (mkInput (InputType TSL) None 0 true
               [mkInput (InputType TS) (Some 3) 5 false [];
                mkInput (InputType TS) None 0 false []])
      ().
Proof. reflexivity. Qed.

(** A reference input without items gets three of them from a reference
    of two items, whatever [bind_output] does as long as it returns: two
    were bound, the third was created when [zip] asked the input before
    it found the items exhausted. *)
Example reference_input_grows
    (bind_output_of :
       option output_id → TimeSeriesInput → outcome TimeSeriesInput ()) :
  returned (bind_output_of (Some 3) unbound_reference_input) = true →
  returned (bind_output_of (Some 4) unbound_reference_input) = true →
  bind_input bind_output_of unbound_reference_input
    (NonPeer None [Peer (Some (OutputType TS)) 3; Peer (Some (OutputType TS)) 4])
    unbound_reference_input =
    Return
      (set_children
         [state_of (bind_output_of (Some 3) unbound_reference_input);
          state_of (bind_output_of (Some 4) unbound_reference_input);
          unbound_reference_input]
         unbound_reference_input)
      ().
Proof.
  intros H3 H4. simpl. unfold output_id in *.
  destruct (bind_output_of (Some 3) unbound_reference_input) as [? []|];
    [|done].
  destruct (bind_output_of (Some 4) unbound_reference_input) as [? []|];
    [|done].
  done.
Qed.

(** *** The observers of a reference output *)

Lemma dict_set_fresh (id : Z) (i : Ref.TimeSeriesInput)
    (obs : list (Z * Ref.TimeSeriesInput)) :
  id ∉ obs.*1 →
  dict_set id i obs = obs ++ [(id, i)] ∧
  filter (λ p : Z * Ref.TimeSeriesInput, p.1 ≠ id) (dict_set id i obs) = obs.
Proof.
  induction obs as [|[id' i'] obs IH]; intros Hid; simpl.
  - split; [done|]. by rewrite filter_cons_False, filter_nil by (simpl; auto).
  - apply not_elem_of_cons in Hid as [Hne Hid]. simpl in Hne.
    destruct (IH Hid) as [Happ Hfilter].
    rewrite decide_False by done. rewrite Happ. split; [done|].
    rewrite filter_cons_True by (simpl; congruence).
    by rewrite <- Happ, Hfilter.
Qed.

Lemma dict_set_known (id : Z) (i : Ref.TimeSeriesInput)
    (obs : list (Z * Ref.TimeSeriesInput)) :
  (dict_set id i obs).*1 = if decide (id ∈ obs.*1) then obs.*1
                           else obs.*1 ++ [id].
Proof.
  induction obs as [|[id' i'] obs IH]; [done|].
  change (dict_set id i ((id', i') :: obs))
    with (if decide (id = id') then (id, i) :: obs
          else (id', i') :: dict_set id i obs).
  rewrite fmap_cons. change ((id', i').1) with id'.
  destruct (decide (id = id')) as [->|Hne].
  - rewrite decide_True by by left. done.
  - rewrite fmap_cons, IH. change ((id', i').1) with id'.
    destruct (decide (id ∈ obs.*1)) as [Hin|Hnot].
    + rewrite decide_True by by right. done.
    + rewrite decide_False; [done|].
      intros Hin. apply elem_of_cons in Hin as [?|?]; done.
Qed.

(** X22: the observers are kept by identity. An input that was not
    observing is added last by [observe_reference], and
    [stop_observing_reference] then gives the output back as it was; an
    input that is observing already is not added a second time, and the
    identities stay distinct. *)
Theorem observe_reference_by_identity (id : Z) (i : Ref.TimeSeriesInput)
    (o : PythonTimeSeriesReferenceOutput) :
  NoDup (_reference_observers o).*1 →
  NoDup (_reference_observers (observe_reference id i o)).*1 ∧
  (id, i) ∈ _reference_observers (observe_reference id i o) ∧
  (id ∈ (_reference_observers o).*1 →
   (_reference_observers (observe_reference id i o)).*1 =
     (_reference_observers o).*1) ∧
  (id ∉ (_reference_observers o).*1 →
   stop_observing_reference id (observe_reference id i o) = o).
Proof.
  intros Hnd. unfold observe_reference, stop_observing_reference. simpl.
  pose proof (dict_set_known id i (_reference_observers o)) as Hkeys.
  split; [|split; [|split]].
  - rewrite Hkeys. case_decide as Hin; [done|].
    apply NoDup_app. split; [done|]. split; [|apply NoDup_singleton].
    intros x Hx Hx'. apply list_elem_of_singleton in Hx' as ->. done.
  - clear. induction (_reference_observers o) as [|[id' i'] obs IH]; simpl.
    + by left.
    + case_decide; [by left | by right].
  - intros Hin. rewrite Hkeys. by rewrite decide_True.
  - intros Hnot. destruct (dict_set_fresh id i _ Hnot) as [_ Hfilter].
    rewrite Hfilter. by destruct o.
Qed.

Lemma observe_reference_by_identity_witness :
  let i := Ref.mkInput (InputType TS) None 0 false [] in
  NoDup (_reference_observers observed).*1 ∧
  NoDup (_reference_observers (observe_reference 300 i observed)).*1 ∧
  (300, i) ∈ _reference_observers (observe_reference 300 i observed) ∧
  (300 ∈ (_reference_observers observed).*1 →
   (_reference_observers (observe_reference 300 i observed)).*1 =
     (_reference_observers observed).*1) ∧
  (300 ∉ (_reference_observers observed).*1 →
   stop_observing_reference 300 (observe_reference 300 i observed) = observed).
Proof.
  intros i.
  assert (NoDup (_reference_observers observed).*1) as Hnd.
  { simpl. apply NoDup_cons. split; [|apply NoDup_singleton].
    intros Hin. apply list_elem_of_singleton in Hin. discriminate. }
  exact (conj Hnd (observe_reference_by_identity 300 i observed Hnd)).
Defined.

(** *** The items of a reference input *)

(** X23: [__getitem__] with an index that is not negative never fails:
    the list of items is grown with new inputs up to the index and no
    further, the items it had are kept in place, the one at the index is
    returned, and asking again for the same index returns it again
    without growing the list. *)
Theorem getitem_grows_to_index {X : Type} (fresh : X) (item : Z)
    (items : option (list X)) :
  0 ≤ item →
  let old := default [] items in
  let new := old ++ replicate (Z.to_nat (item + 1 - Z.of_nat (length old))) fresh in
  getitem fresh item items =
    (Some new, Some (default fresh (old !! Z.to_nat item))) ∧
  Z.of_nat (length new) = Z.max (Z.of_nat (length old)) (item + 1) ∧
  getitem fresh item (Some new) =
    (Some new, Some (default fresh (old !! Z.to_nat item))).
Proof.
  intros Hitem old new.
  assert (Z.of_nat (length new) = Z.max (Z.of_nat (length old)) (item + 1))
    as Hlen.
  { subst new. rewrite length_app, length_replicate. lia. }
  assert (new !! Z.to_nat item = Some (default fresh (old !! Z.to_nat item)))
    as Hat.
  { subst new. destruct (old !! Z.to_nat item) as [x|] eqn:Hold; simpl.
    - by apply lookup_app_l_Some.
    - apply lookup_ge_None in Hold. rewrite lookup_app_r by done.
      apply lookup_replicate. split; [done|]. lia. }
  split; [|split; [done|]].
  - unfold getitem. fold old. fold new. by rewrite bool_decide_true, Hat.
  - unfold getitem. simpl.
    replace (Z.to_nat (item + 1 - Z.of_nat (length new))) with 0%nat by lia.
    simpl. rewrite app_nil_r. by rewrite bool_decide_true, Hat.
Qed.

Lemma getitem_grows_to_index_witness :
  0 ≤ 2 ∧
  let old := default [] (Some [10; 11]) in
  let new := old ++ replicate (Z.to_nat (2 + 1 - Z.of_nat (length old))) 0 in
  getitem 0 2 (Some [10; 11]) =
    (Some new, Some (default 0 (old !! Z.to_nat 2))) ∧
  Z.of_nat (length new) = Z.max (Z.of_nat (length old)) (2 + 1) ∧
  getitem 0 2 (Some new) =
    (Some new, Some (default 0 (old !! Z.to_nat 2))).
Proof.
  assert (0 ≤ 2) as Hitem by lia.
  exact (conj Hitem (getitem_grows_to_index 0 2 (Some [10; 11]) Hitem)).
Defined.

End RefSpec.

(** ** The dictionary input as key observer *)

Module TSDInputSpec.
Import TSDInput.

Section WithKeys.
Context {K : Type} `{Countable K}.
Implicit Types (w : world K) (k : K).

Lemma on_key_removed_registered w k :
  clearing_registered w → clearing_registered (state_of (on_key_removed k w)).
Proof.
  unfold clearing_registered, on_key_removed. intros Hw.
  case_bool_decide as Hempty.
  - assert (after_evaluation_notifications w ++ [ClearKeyChanges] ≠ []) as Hne
      by by destruct (after_evaluation_notifications w).
    simpl. destruct (_ts_values (tsd w) !! k) as [c|]; simpl; [|done].
    by destruct (parent_is_self c).
  - specialize (Hw Hempty).
    destruct (_ts_values (tsd w) !! k) as [c|]; simpl; [|done].
    by destruct (parent_is_self c).
Qed.

Lemma keys_removed_registered (keys : list K) w :
  clearing_registered w → clearing_registered (state_of (keys_removed keys w)).
Proof.
  revert w. induction keys as [|k keys IH]; intros w Hw; simpl; [done|].
  pose proof (on_key_removed_registered w k Hw) as Hstep.
  unfold mbind, M_bind.
  destruct (on_key_removed k w) as [w1 []|w1 e]; simpl in *; [by apply IH | done].
Qed.

Lemma run_callbacks_clear (cbs : list callback) w :
  cbs ≠ [] ∨ _removed_items (tsd w) = ∅ →
  _removed_items (tsd (foldl (λ w cb, run_callback cb w) w cbs)) = ∅.
Proof.
  revert w. induction cbs as [|cb cbs IH]; intros w Hw; simpl.
  - by destruct Hw.
  - apply IH. right. by destruct cb.
Qed.

(** X18: on the input side the removed children do not outlive the
    drain. When whatever is in [removed_items] has its clearing
    registered (as it is when [removed_items] is empty), then after the
    output has told the input of any removals, returned or not, the
    callbacks run at the end of the drain leave [removed_items] empty. *)
Theorem removed_children_cleared (keys : list K) w :
  clearing_registered w →
  _removed_items (tsd (after_evaluation (state_of (keys_removed keys w)))) = ∅.
Proof.
  intros Hw. pose proof (keys_removed_registered keys w Hw) as Hreg.
  unfold after_evaluation. simpl. apply run_callbacks_clear.
  unfold clearing_registered in Hreg.
  destruct (decide (_removed_items (tsd (state_of (keys_removed keys w))) = ∅));
    [by right | left; by apply Hreg].
Qed.

(** [on_key_removed] of a key the input has: a child of the input
    itself leaves the children for [removed_items], made passive; a child
    transplanted from another parent stays among the children, unbound,
    and [removed_items] is not touched. *)
Theorem on_key_removed_own_or_transplanted w k (c : child) :
  _ts_values (tsd w) !! k = Some c →
  ∃ w', on_key_removed k w = Return w' () ∧
        if parent_is_self c then
          _ts_values (tsd w') = delete k (_ts_values (tsd w)) ∧
          _removed_items (tsd w') =
            <[k := mkChild true false (bound c)]> (_removed_items (tsd w))
        else
          _ts_values (tsd w') =
            <[k := mkChild false (active c) false]> (_ts_values (tsd w)) ∧
          _removed_items (tsd w') = _removed_items (tsd w).
Proof.
  intros Hk. unfold on_key_removed.
  assert (∀ w0 : world K,
            tsd (if bool_decide (_removed_items (tsd w) = ∅)
                 then add_after_evaluation_notification ClearKeyChanges w
                 else w) = tsd w) as Htsd
    by (intros; by case_bool_decide).
  rewrite (Htsd w), Hk.
  destruct c as [[|] [|] bd]; simpl; eexists; (split; [done|]); simpl;
    try done.
  all: by rewrite insert_delete_eq.
Qed.

End WithKeys.

Lemma removed_children_cleared_witness :
  clearing_registered two_children ∧
  _removed_items
    (tsd (after_evaluation (state_of (keys_removed [1; 2; 3] two_children)))) =
    ∅.
Proof.
  assert (clearing_registered two_children) as Hw by (intros Hne; done).
  exact (conj Hw (removed_children_cleared [1; 2; 3] two_children Hw)).
Defined.

Lemma on_key_removed_own_or_transplanted_witness :
  _ts_values (tsd two_children) !! 2 = Some (mkChild false true true) ∧
  ∃ w', on_key_removed 2 two_children = Return w' () ∧
        _ts_values (tsd w') =
          <[2 := mkChild false true false]> (_ts_values (tsd two_children)) ∧
        _removed_items (tsd w') = _removed_items (tsd two_children).
Proof.
  assert (_ts_values (tsd two_children) !! 2 = Some (mkChild false true true))
    as Hk by (vm_compute; reflexivity).
  exact (conj Hk (on_key_removed_own_or_transplanted two_children 2 _ Hk)).
Defined.

(** The removals of [two_children], key by key: the own child is moved,
    the transplanted one kept, and the key that is not there raises. *)
Example two_children_removed :
  let w := state_of (keys_removed [1; 2; 3] two_children) in
  returned (keys_removed [1; 2; 3] two_children) = false ∧
  _ts_values (tsd w) !! 1 = None ∧
  _removed_items (tsd w) !! 1 = Some (mkChild true false true) ∧
  _ts_values (tsd w) !! 2 = Some (mkChild false true false) ∧
  after_evaluation_notifications w = [ClearKeyChanges].
Proof. repeat split; by vm_compute. Qed.

End TSDInputSpec.
